(** * MQTT tunnels and MQTT client: a shallow embedding

    This development embeds the tunnelling script [mqtt_tunnels.py] and the
    callback and shutdown logic of [mqtt_client.py], and states the properties
    of the design document about them.

    Conventions.
    - Python [str] values are [string]s, read as sequences of code points
      below U+0100; [bytes] values are lists of [Byte.byte].
    - Python [int] is [Z].
    - A Python [set] of strings is a [gset string].  The order in which a
      [for] loop visits a set is not specified by Python: it is a parameter
      [set_iter] of the model, only required to list every element once.
    - Calls to the operating system (sockets, [select], the [find]
      subprocess, the MQTT library) are answered by an explicit environment
      value that is an argument of the embedded function. *)

From Stdlib Require Import ZArith Lia Ascii String List.
From stdpp Require Import gmap strings list pretty.

(** ** Python string primitives used by the discovery code *)

Module PyStr.

(** [str.isspace] on one code point below U+0100: the characters that
    [str.strip()] removes. *)
Definition isspace (c : ascii) : bool :=
  let n := nat_of_ascii c in
  (((9 <=? n) && (n <=? 13)) || ((28 <=? n) && (n <=? 32))
   || (n =? 133) || (n =? 160))%nat.

Fixpoint lstrip (s : string) : string :=
  match s with
  | EmptyString => EmptyString
  | String c r => if isspace c then lstrip r else s
  end.

Fixpoint rstrip (s : string) : string :=
  match s with
  | EmptyString => EmptyString
  | String c r =>
      match rstrip r with
      | EmptyString => if isspace c then EmptyString else String c EmptyString
      | r' => String c r'
      end
  end.

(** [s.strip()] *)
Definition strip (s : string) : string := rstrip (lstrip s).

(** [s.split(sep)] for a one-character separator: the pieces between the
    occurrences of [sep]; the result is never the empty list. *)
Fixpoint split (sep : ascii) (s : string) : list string :=
  match s with
  | EmptyString => [EmptyString]
  | String c r =>
      if Ascii.eqb c sep then EmptyString :: split sep r
      else match split sep r with
           | w :: ws => String c w :: ws
           | [] => [String c EmptyString]
           end
  end.

Definition newline : ascii := Ascii.ascii_of_nat 10%nat.

End PyStr.

(** ** Discovery: [wait_for_broker_socket] and [watch_msg_sockets] *)

Module Discovery.

(** [result.stdout.strip().split("\n")] *)
Definition listing (stdout : string) : list string :=
  PyStr.split PyStr.newline (PyStr.strip stdout).

(** What [wait_for_broker_socket] did before returning: the value returned
    and the number of [time.sleep(1)] calls made. *)
Record wait_result := { returned : bool; sleeps : nat }.

(** [wait_for_broker_socket], run against the successive outputs of the
    [find] command.  [None]: still polling when the outputs run out. *)
Fixpoint wait_for_broker_socket (outs : list string) : option wait_result :=
  match outs with
  | [] => None
  | stdout :: rest =>
      let files := listing stdout in
      if Nat.eqb (length files) 0%nat then
        match wait_for_broker_socket rest with
        | Some r => Some {| returned := returned r; sleeps := S (sleeps r) |}
        | None => None
        end
      else Some {| returned := true; sleeps := 0%nat |}
  end.

(** What [find] writes to its standard output for the paths it finds, in
    the order in which it finds them: each path followed by a newline. *)
Fixpoint find_stdout (paths : list string) : string :=
  match paths with
  | [] => EmptyString
  | path :: rest => path +:+ String PyStr.newline (find_stdout rest)
  end.

(** What [subprocess.run(cmd, shell=True, capture_output=True, text=True)]
    gives: the standard output decoded, or [UnicodeDecodeError] when the
    output does not decode (a path that is no UTF-8). *)
Inductive run_result := Stdout (stdout : string) | DecodeError.

(** A started thread: [create_msg_tunnel(file, n_socket)]. *)
Record thread := { th_file : string; th_slot : Z }.

(** Local state of [watch_msg_sockets]. *)
Record watcher := { sockets : gset string; n_socket : Z }.

Definition watcher_init : watcher := {| sockets := ∅; n_socket := 1 |}.

(** The body of [for file in new_files], over the visiting order. *)
Fixpoint start_tunnels (new_files : list string) (n : Z) : list thread * Z :=
  match new_files with
  | [] => ([], n)
  | file :: rest =>
      if decide (file = EmptyString) then start_tunnels rest n
      else
        let r := start_tunnels rest (n + 1) in
        ({| th_file := file; th_slot := n |} :: r.1, r.2)
  end.

Section Watch.

(** The order in which Python iterates over a set. *)
Variable set_iter : gset string → list string.

(** One pass of the [while True] loop of [watch_msg_sockets], up to the
    [time.sleep(1)]: the threads started and the new local state. *)
Definition poll (stdout : string) (w : watcher) : list thread * watcher :=
  let files := listing stdout in
  let new_files := list_to_set files ∖ sockets w in
  let r := start_tunnels (set_iter new_files) (n_socket w) in
  (r.1, {| sockets := sockets w ∪ list_to_set files; n_socket := r.2 |}).

(** The loop over the successive outputs of [find]. *)
Fixpoint watch_msg_sockets (outs : list string) (w : watcher)
  : list thread * watcher :=
  match outs with
  | [] => ([], w)
  | stdout :: rest =>
      let p := poll stdout w in
      let r := watch_msg_sockets rest p.2 in
      (p.1 ++ r.1, r.2)
  end.

(** The same loop over the results of [subprocess.run]: nothing catches the
    exception, which ends the loop and the thread of the watcher.  The
    boolean tells whether the watcher is still running. *)
Fixpoint watch_runs (runs : list run_result) (w : watcher)
  : list thread * watcher * bool :=
  match runs with
  | [] => ([], w, true)
  | Stdout stdout :: rest =>
      let p := poll stdout w in
      let r := watch_runs rest p.2 in
      (p.1 ++ r.1.1, r.1.2, r.2)
  | DecodeError :: _ => ([], w, false)
  end.

(** Number of threads started for the name [f]. *)
Definition workers_for (f : string) (ths : list thread) : nat :=
  length (filter (λ t, th_file t = f) ths).

End Watch.

End Discovery.

(** ** The tunnel: [UnixSocketTunneler] *)

Module Tunnel.

Abbreviation bytes := (list Byte.byte).

(** The Python exceptions that occur in [tunnel].  [socket.error] is
    [OSError]; [BlockingIOError] is one of its subclasses.  The three others
    are raised by the interpreter itself. *)
Inductive exn :=
| OSError | BlockingIOError | UnboundLocalError | AttributeError | TypeError.

(** [except socket.error] *)
Definition is_socket_error (e : exn) : bool :=
  match e with OSError | BlockingIOError => true | _ => false end.

(** The answer of the operating system to one socket call: a value, a
    transient would-block ([BlockingIOError]) or another [OSError].  These
    are the failures [except socket.error] is written for; an exception of
    another class out of a socket call ([ValueError] of [select] on a
    descriptor above 1023) and an error of [close] are not among the
    answers considered. *)
Inductive answer (A : Type) := Returns (a : A) | WouldBlock | Fails.
Arguments Returns {A} a.
Arguments WouldBlock {A}.
Arguments Fails {A}.

Definition raised {A} (a : answer A) : option exn :=
  match a with
  | Returns _ => None
  | WouldBlock => Some BlockingIOError
  | Fails => Some OSError
  end.

(** The two ends of a tunnel. *)
Inductive side := Client | Broker.

#[global] Instance side_eq_dec : EqDecision side.
Proof. solve_decision. Defined.

Definition other (s : side) : side :=
  match s with Client => Broker | Broker => Client end.

(** *** The relay loop (the inner [while True]) *)

(** What [select.select(rlist, wlist, [])] found ready. *)
Record ready := {
  rd_client : bool; rd_broker : bool; wr_client : bool; wr_broker : bool }.

Definition read_ready (r : ready) (s : side) : bool :=
  match s with Client => rd_client r | Broker => rd_broker r end.
Definition write_ready (r : ready) (s : side) : bool :=
  match s with Client => wr_client r | Broker => wr_broker r end.

(** The answers of the operating system during one pass of the loop: to
    [select], to [recv(4096)] on each socket and to [send] on each socket.
    An answer is used only when the pass makes the call. *)
Record event := {
  ev_select : answer ready;
  ev_recv : side → answer bytes;
  ev_send : side → answer nat }.

(** The socket calls a pass makes, with their arguments and answers. *)
Inductive call :=
| CSelect (rlist wlist : list side) (a : answer ready)
| CRecv (s : side) (bufsize : nat) (a : answer bytes)
| CSend (s : side) (buf : bytes) (a : answer nat).

(** How a block of the loop body ends: normally with a value, by [break],
    or with an exception. *)
Inductive flow (A : Type) := Next (a : A) | Break | Throw (e : exn).
Arguments Next {A} a.
Arguments Break {A}.
Arguments Throw {A} e.

Definition step (A : Type) : Type := flow A * list call.

Definition ret {A} (a : A) : step A := (Next a, []).

Definition bind {A B} (m : step A) (k : A → step B) : step B :=
  match m.1 with
  | Next a => let r := k a in (r.1, m.2 ++ r.2)
  | Break => (Break, m.2)
  | Throw e => (Throw e, m.2)
  end.

Notation "'let*' x := m 'in' k" := (bind m (λ x, k))
  (at level 10, x name, m at level 100, k at level 200).

Definition nonempty (b : bytes) : bool :=
  match b with [] => false | _ => true end.

(** [if s in readable: try: data = s.recv(4096) ... except BlockingIOError: pass]
    where [buf] is the buffer towards the other side. *)
Definition recv_into (s : side) (a : answer bytes) (buf : bytes) : step bytes :=
  match a with
  | Returns data =>
      if nonempty data then (Next (buf ++ data), [CRecv s 4096 a])
      else (Break, [CRecv s 4096 a])
  | WouldBlock => (Next buf, [CRecv s 4096 a])
  | Fails => (Throw OSError, [CRecv s 4096 a])
  end.

(** [try: sent = s.send(buf); buf = buf[sent:] except BlockingIOError: pass] *)
Definition send_from (s : side) (a : answer nat) (buf : bytes) : step bytes :=
  match a with
  | Returns sent => (Next (drop sent buf), [CSend s buf a])
  | WouldBlock => (Next buf, [CSend s buf a])
  | Fails => (Throw OSError, [CSend s buf a])
  end.

(** The two buffers of [tunnel]. *)
Record buffers := {
  client_to_broker_buffer : bytes;
  broker_to_client_buffer : bytes }.

Definition no_buffers : buffers :=
  {| client_to_broker_buffer := []; broker_to_client_buffer := [] |}.

(** One pass of the inner loop. *)
Definition relay_pass (ev : event) (b : buffers) : step buffers :=
  let rlist := [Client; Broker] in
  let wlist :=
    (if nonempty (client_to_broker_buffer b) then [Broker] else [])
    ++ (if nonempty (broker_to_client_buffer b) then [Client] else []) in
  match ev_select ev with
  | Returns r =>
      let readable s := bool_decide (s ∈ rlist) && read_ready r s in
      let writable s := bool_decide (s ∈ wlist) && write_ready r s in
      let* _ := (Next tt, [CSelect rlist wlist (ev_select ev)]) in
      let* c2b :=
        if readable Client
        then recv_into Client (ev_recv ev Client) (client_to_broker_buffer b)
        else ret (client_to_broker_buffer b) in
      let* b2c :=
        if readable Broker
        then recv_into Broker (ev_recv ev Broker) (broker_to_client_buffer b)
        else ret (broker_to_client_buffer b) in
      let* c2b' :=
        if writable Broker && nonempty c2b
        then send_from Broker (ev_send ev Broker) c2b
        else ret c2b in
      let* b2c' :=
        if writable Client && nonempty b2c
        then send_from Client (ev_send ev Client) b2c
        else ret b2c in
      ret {| client_to_broker_buffer := c2b'; broker_to_client_buffer := b2c' |}
  | WouldBlock => (Throw BlockingIOError, [CSelect rlist wlist (ev_select ev)])
  | Fails => (Throw OSError, [CSelect rlist wlist (ev_select ev)])
  end.

(** How a relay session stands after the events supplied: left by [break]
    after a zero-length read, left by an exception, or still in the loop
    (waiting in [select] for the next event). *)
Inductive reason := peer_closed | io_error (e : exn).
Inductive relay_end := Ended (r : reason) | Relaying (b : buffers).

Fixpoint relay (evs : list event) (b : buffers) : relay_end * list call :=
  match evs with
  | [] => (Relaying b, [])
  | ev :: rest =>
      let p := relay_pass ev b in
      match p.1 with
      | Next b' => let r := relay rest b' in (r.1, p.2 ++ r.2)
      | Break => (Ended peer_closed, p.2)
      | Throw e => (Ended (io_error e), p.2)
      end
  end.

(** The byte streams seen at the sockets, read off the calls made:
    everything [recv] returned on a side, and everything [send] got
    accepted on a side (the first [sent] bytes of the buffer offered). *)
Fixpoint received_from (s : side) (log : list call) : bytes :=
  match log with
  | [] => []
  | CRecv s' _ (Returns data) :: rest =>
      if decide (s' = s) then data ++ received_from s rest
      else received_from s rest
  | _ :: rest => received_from s rest
  end.

Fixpoint delivered_to (s : side) (log : list call) : bytes :=
  match log with
  | [] => []
  | CSend s' buf (Returns sent) :: rest =>
      if decide (s' = s) then take sent buf ++ delivered_to s rest
      else delivered_to s rest
  | _ :: rest => delivered_to s rest
  end.

(** The buffer that holds the bytes travelling towards side [s]. *)
Definition buffer_to (s : side) (b : buffers) : bytes :=
  match s with
  | Broker => client_to_broker_buffer b
  | Client => broker_to_client_buffer b
  end.

(** A pass in which the transport towards [s] makes progress and nothing
    ends the session: [select] returns, it reports [s] writable, [send] on
    [s] accepts at least one byte, and no [recv] or [send] answers with a
    zero-length read or an error other than would-block. *)
Definition recv_harmless (a : answer bytes) : bool :=
  match a with Returns data => nonempty data | WouldBlock => true | Fails => false end.
Definition send_harmless (a : answer nat) : bool :=
  match a with Fails => false | _ => true end.

Definition progress_to (s : side) (ev : event) : bool :=
  match ev_select ev with
  | Returns r =>
      write_ready r s
      && match ev_send ev s with Returns (S _) => true | _ => false end
      && recv_harmless (ev_recv ev Client) && recv_harmless (ev_recv ev Broker)
      && send_harmless (ev_send ev (other s))
  | _ => false
  end.

(** The calls that end a session: a [recv] that returns no byte, and a
    call that raises out of the loop ([recv] and [send] catch
    [BlockingIOError]; [select] is outside their [try]). *)
Definition zero_length_read (c : call) : bool :=
  match c with CRecv _ _ (Returns []) => true | _ => false end.

Definition io_failure (c : call) : option exn :=
  match c with
  | CSelect _ _ a => raised a
  | CRecv _ _ Fails => Some OSError
  | CSend _ _ Fails => Some OSError
  | _ => None
  end.

Definition uneventful (c : call) : Prop :=
  zero_length_read c = false ∧ io_failure c = None.

(** How the calls made account for the way a session stands: it ends with
    [peer_closed] at its first zero-length read, with [io_error] at its
    first failing call, and goes on while the calls are uneventful. *)
Definition accounts_for (log : list call) (o : relay_end) : Prop :=
  match o with
  | Ended peer_closed =>
      ∃ pre s n, log = pre ++ [CRecv s n (Returns [])] ∧ Forall uneventful pre
  | Ended (io_error e) =>
      ∃ pre k, log = pre ++ [k] ∧ io_failure k = Some e ∧ Forall uneventful pre
  | Relaying _ => Forall uneventful log
  end.

(** The way a session stands after a pass that ended with [f]. *)
Definition pass_end (f : flow buffers) : relay_end :=
  match f with
  | Next b => Relaying b
  | Break => Ended peer_closed
  | Throw e => Ended (io_error e)
  end.

(** *** The worker (the outer [while True] of [tunnel]) *)

Record UnixSocketTunneler := {
  client_socket_path : string;
  broker_socket_path : string;
  n_socket : Z }.

(** [create_msg_tunnel]: the tunneler it builds, given the module variable
    [BROKER_SOCKETS_PATH]. *)
Definition create_msg_tunnel (BROKER_SOCKETS_PATH : string)
    (client_socket : string) (n_socket : Z) : UnixSocketTunneler :=
  {| client_socket_path := client_socket;
     broker_socket_path := BROKER_SOCKETS_PATH;
     n_socket := n_socket |}.

(** [f"/tmp/mqtt_msg_{self.n_socket}.sock"] *)
Definition broker_path (t : UnixSocketTunneler) : string :=
  ("/tmp/mqtt_msg_" +:+ pretty (n_socket t) +:+ ".sock")%string.

(** Socket objects, named by a number. *)
Definition sock := nat.

(** A local variable of [tunnel]: not assigned yet, or bound to a value. *)
Inductive binding (A : Type) := Unbound | Bound (a : A).
Arguments Unbound {A}.
Arguments Bound {A} a.

Record locals := {
  client_sock : binding (option sock);
  broker_sock : binding sock;
  bufs : buffers }.

Definition locals_init : locals :=
  {| client_sock := Unbound; broker_sock := Unbound; bufs := no_buffers |}.

(** The condition of a stream socket that [select] looks at.  A socket is
    reported readable when [recv] would not block: bytes are queued, or the
    peer has closed and [recv] returns [b''] (the case the relay loop
    handles after its own [select]). *)
Inductive readiness := NotReady | DataAvailable | EndOfStream.

Definition is_readable (r : readiness) : bool :=
  match r with NotReady => false | _ => true end.

(** The operating system during one attempt: the answers to
    [socket.socket] and [connect] for each side, the condition the client
    socket reaches while the worker waits for it, and the events of the
    relay loop. *)
Record attempt_env := {
  env_socket : side → answer unit;
  env_connect : side → answer unit;
  env_client_wait : answer readiness;
  env_relay : list event }.

(** What the worker does, as seen from outside. *)
Inductive action :=
| ASocket (s : sock) (a : answer unit)
| AConnect (s : sock) (path : string) (a : answer unit)
| ASelect (rlist : list sock) (timeout : option nat) (a : answer readiness)
| ARelay (client broker : sock) (calls : list call)
| APrintSocketError
| AClose (s : sock)
| ASleep (seconds : nat).

(** How a piece of the worker ends: with a value, with an exception, or
    never (blocked in a call that does not return). *)
Inductive outcome (A : Type) := Done (a : A) | Raised (e : exn) | Blocks.
Arguments Done {A} a.
Arguments Raised {A} e.
Arguments Blocks {A}.

Definition act (A : Type) : Type := outcome A * list action.

Definition act_ret {A} (a : A) : act A := (Done a, []).

Definition act_bind {A B} (m : act A) (k : A → act B) : act B :=
  match m.1 with
  | Done a => let r := k a in (r.1, m.2 ++ r.2)
  | Raised e => (Raised e, m.2)
  | Blocks => (Blocks, m.2)
  end.

Notation "'do*' x := m 'in' k" := (act_bind m (λ x, k))
  (at level 10, x name, m at level 100, k at level 200).

(** A system call that returns or raises. *)
Definition sys {A} (a : answer A) (what : action) : act A :=
  match a with
  | Returns v => (Done v, [what])
  | WouldBlock => (Raised BlockingIOError, [what])
  | Fails => (Raised OSError, [what])
  end.

(** [select.select(rlist, [], [])]: no timeout, so it returns only once a
    socket of [rlist] is readable. *)
Definition select_read (rlist : list sock) (a : answer readiness)
  : act (list sock) :=
  do* r := sys a (ASelect rlist None a) in
  match filter (λ _, is_readable r = true) rlist with
  | [] => (Blocks, [])
  | ready => act_ret ready
  end.

(** [__connect_to_client_socket_and_wait_for_data]; [fd] names the socket
    it creates. *)
Definition connect_to_client_socket_and_wait_for_data
    (t : UnixSocketTunneler) (env : attempt_env) (fd : sock)
  : act (option sock) :=
  let client_sock := fd in
  do* _ := sys (env_socket env Client)
             (ASocket client_sock (env_socket env Client)) in
  do* _ := sys (env_connect env Client)
             (AConnect client_sock (client_socket_path t) (env_connect env Client)) in
  do* ready_to_read := select_read [client_sock] (env_client_wait env) in
  if bool_decide (client_sock ∈ ready_to_read) then act_ret (Some client_sock)
  else act_ret None.

(** The inner loop run on the two sockets.  [select] needs socket objects:
    with [client_sock] bound to [None] it raises [TypeError]. *)
Definition relay_on (client : option sock) (broker : sock)
    (evs : list event) (b : buffers) : act unit :=
  match client with
  | None => (Raised TypeError, [])
  | Some c =>
      let r := relay evs b in
      (match r.1 with
       | Ended peer_closed => Done tt
       | Ended (io_error e) => Raised e
       | Relaying _ => Blocks
       end, [ARelay c broker r.2])
  end.

(** The body of the [try] block.  It returns the local variables as it
    leaves them, also when it ends with an exception. *)
Definition try_body (t : UnixSocketTunneler) (env : attempt_env)
    (l : locals) (fd : sock) : act unit * locals :=
  let a0 := sys (env_socket env Broker) (ASocket fd (env_socket env Broker)) in
  match a0.1 with
  | Done _ =>
      let l1 := {| client_sock := client_sock l; broker_sock := Bound fd;
                   bufs := bufs l |} in
      let a1 := connect_to_client_socket_and_wait_for_data t env (S fd) in
      match a1.1 with
      | Done cs =>
          let l2 := {| client_sock := Bound cs; broker_sock := Bound fd;
                       bufs := bufs l |} in
          let broker_socket_path := broker_path t in
          let a2 :=
            do* _ := sys (env_connect env Broker)
                       (AConnect fd broker_socket_path (env_connect env Broker)) in
            relay_on cs fd (env_relay env) (bufs l) in
          ((a2.1, a0.2 ++ a1.2 ++ a2.2), l2)
      | Raised e => ((Raised e, a0.2 ++ a1.2), l1)
      | Blocks => ((Blocks, a0.2 ++ a1.2), l1)
      end
  | Raised e => ((Raised e, a0.2), l)
  | Blocks => ((Blocks, a0.2), l)
  end.

(** The [finally] block. *)
Definition finally_block (l : locals) : act locals :=
  match client_sock l with
  | Unbound => (Raised UnboundLocalError, [])
  | Bound None => (Raised AttributeError, [])
  | Bound (Some c) =>
      match broker_sock l with
      | Unbound => (Raised UnboundLocalError, [AClose c])
      | Bound b =>
          (Done {| client_sock := client_sock l; broker_sock := broker_sock l;
                   bufs := no_buffers |},
           [AClose c; AClose b; ASleep 1])
      end
  end.

(** How one pass of the outer loop ends: the loop goes on with new local
    variables, the exception leaves [tunnel] and the thread ends, or the
    worker stays inside the attempt. *)
Inductive attempt_end := Retry (l : locals) | Dies (e : exn) | Inside.

(** One pass of the outer loop: [try] / [except socket.error] / [finally]. *)
Definition attempt (t : UnixSocketTunneler) (env : attempt_env)
    (l : locals) (fd : sock) : attempt_end * list action :=
  let b := try_body t env l fd in
  match b.1.1 with
  | Blocks => (Inside, b.1.2)
  | Done _ =>
      let f := finally_block b.2 in
      (match f.1 with
       | Done l' => Retry l' | Raised e => Dies e | Blocks => Inside
       end, b.1.2 ++ f.2)
  | Raised e =>
      if is_socket_error e then
        let f := finally_block b.2 in
        (match f.1 with
         | Done l' => Retry l' | Raised e' => Dies e' | Blocks => Inside
         end, b.1.2 ++ [APrintSocketError] ++ f.2)
      else
        let f := finally_block b.2 in
        (match f.1 with
         | Done _ => Dies e | Raised e' => Dies e' | Blocks => Inside
         end, b.1.2 ++ f.2)
  end.

(** Where the worker stands after the attempts supplied. *)
Inductive worker := Alive (l : locals) | Dead (e : exn) | InSession.

Fixpoint tunnel_from (t : UnixSocketTunneler) (envs : list attempt_env)
    (l : locals) (fd : sock) : worker * list action :=
  match envs with
  | [] => (Alive l, [])
  | env :: rest =>
      let a := attempt t env l fd in
      match a.1 with
      | Retry l' =>
          let r := tunnel_from t rest l' (S (S fd)) in (r.1, a.2 ++ r.2)
      | Dies e => (Dead e, a.2)
      | Inside => (InSession, a.2)
      end
  end.

(** [tunnel]: the local variables start unbound, the buffers empty. *)
Definition tunnel (t : UnixSocketTunneler) (envs : list attempt_env)
  : worker * list action :=
  tunnel_from t envs locals_init 0.

(** *** Environments used in the examples *)

(** The client socket is readable and [recv] returns [data] on it. *)
Definition client_sends (data : bytes) : event :=
  {| ev_select := Returns {| rd_client := true; rd_broker := false;
                             wr_client := false; wr_broker := false |};
     ev_recv := λ _, Returns data;
     ev_send := λ _, WouldBlock |}.

(** The broker socket is writable and accepts [n] bytes. *)
Definition broker_accepts (n : nat) : event :=
  {| ev_select := Returns {| rd_client := false; rd_broker := false;
                             wr_client := false; wr_broker := true |};
     ev_recv := λ _, WouldBlock;
     ev_send := λ _, Returns n |}.

(** The client has closed: its socket is readable and [recv] returns no
    byte, while the broker socket is writable and [send] would accept [n]
    bytes. *)
Definition client_closes_broker_accepts (n : nat) : event :=
  {| ev_select := Returns {| rd_client := true; rd_broker := false;
                             wr_client := false; wr_broker := true |};
     ev_recv := λ _, Returns [];
     ev_send := λ _, Returns n |}.

(** Every call succeeds, the client writes [data] and closes at once, the
    broker being ready to take the bytes. *)
Definition client_writes_and_closes (data : bytes) : attempt_env :=
  {| env_socket := λ _, Returns tt;
     env_connect := λ _, Returns tt;
     env_client_wait := Returns DataAvailable;
     env_relay := [client_sends data;
                   client_closes_broker_accepts (length data)] |}.

(** Every call succeeds, the client writes [data] and then closes. *)
Definition client_writes_then_closes (data : bytes) : attempt_env :=
  {| env_socket := λ _, Returns tt;
     env_connect := λ _, Returns tt;
     env_client_wait := Returns DataAvailable;
     env_relay := [client_sends data; client_sends []] |}.

(** Nothing listens on the client socket path: [connect] fails. *)
Definition client_refuses : attempt_env :=
  {| env_socket := λ _, Returns tt;
     env_connect := λ s, match s with Client => Fails | Broker => Returns tt end;
     env_client_wait := Returns NotReady;
     env_relay := [] |}.

(** The remote side accepts the connection and closes it without sending
    a byte. *)
Definition silent_close : attempt_env :=
  {| env_socket := λ _, Returns tt;
     env_connect := λ _, Returns tt;
     env_client_wait := Returns EndOfStream;
     env_relay := [client_sends []] |}.

(** The remote side accepts the connection and stays silent. *)
Definition silent_peer : attempt_env :=
  {| env_socket := λ _, Returns tt;
     env_connect := λ _, Returns tt;
     env_client_wait := Returns NotReady;
     env_relay := [] |}.

End Tunnel.

(** ** The MQTT client wrapper: [MqttClient] *)

Module Client.

Inductive ConnectionType := UNIX_SOCKET | SERIAL_PORT | TCP_DEBUG.

(** Callables registered as callbacks, list objects, instances and the
    clients of the MQTT library are named by numbers. *)
Definition callback := nat.
Definition ref := nat.
Definition obj := nat.
Definition handle := nat.

(** The Python values held by the attributes of [MqttClient]. *)
Inductive value :=
| VNone
| VBool (b : bool)
| VStr (s : string)
| VConn (c : ConnectionType)
| VFun (f : callback)
| VList (r : ref)
| VClient (h : handle).

Abbreviation attrs := (gmap string value).

(** The objects of the program: the attributes of the class [MqttClient],
    the [__dict__] of each instance, and the list objects, which are
    shared by every name that refers to them. *)
Record store := {
  class_dict : attrs;
  instances : gmap obj attrs;
  lists : gmap ref (list value) }.

(** Inside the class, [__message_callbacks] is the attribute
    [_MqttClient__message_callbacks]. *)
Definition message_callbacks_attr : string := "_MqttClient__message_callbacks".
Definition connected_callbacks_attr : string := "_MqttClient__connected_callbacks".
Definition subscriptions_attr : string := "_MqttClient__subscriptions".
Definition debugging_attr : string := "_MqttClient__debugging".

(** The store after the [class MqttClient] statement has run: the two
    callback lists are created once, here. *)
Definition class_statement : store :=
  {| class_dict :=
       list_to_map
         [ ("connection_type"%string, VConn UNIX_SOCKET);
           ("connection_string"%string, VStr EmptyString);
           ("identifier"%string, VStr "unknown");
           ("on_connected"%string, VNone);
           ("on_message"%string, VNone);
           ("on_subscribed"%string, VNone);
           ("on_log"%string, VNone);
           (message_callbacks_attr, VList 0);
           (connected_callbacks_attr, VList 1);
           ("connected"%string, VBool false);
           ("is_starting"%string, VBool false);
           (debugging_attr, VBool false) ];
     instances := ∅;
     lists := <[0 := []]> (<[1 := []]> ∅) |}.

(** [self.name]: the instance's own attribute, else the class's. *)
Definition getattr (st : store) (self : obj) (name : string) : option value :=
  match instances st !! self with
  | None => None
  | Some d =>
      match d !! name with
      | Some v => Some v
      | None => class_dict st !! name
      end
  end.

(** [self.name = v]: always on the instance. *)
Definition setattr (st : store) (self : obj) (name : string) (v : value) : store :=
  {| class_dict := class_dict st;
     instances := alter (insert name v) self (instances st);
     lists := lists st |}.

(** [MqttClient(identifier, connection_type, connection_string, debugging)]:
    [__init__] on a new instance. *)
Definition new (identifier : string) (connection_type : ConnectionType)
    (connection_string : string) (debugging : bool) (st : store) : obj * store :=
  let self := fresh (dom (instances st)) in
  let subs := fresh (dom (lists st)) in
  (self,
   {| class_dict := class_dict st;
      instances :=
        <[self :=
            list_to_map
              [ ("mqtt_client"%string, VNone);
                ("identifier"%string, VStr identifier);
                ("connection_type"%string, VConn connection_type);
                ("connection_string"%string, VStr connection_string);
                (debugging_attr, VBool debugging);
                (subscriptions_attr, VList subs) ]]> (instances st);
      lists := <[subs := []]> (lists st) |}).

(** The list object an attribute of [self] refers to. *)
Definition list_of (st : store) (self : obj) (name : string)
  : option (ref * list value) :=
  match getattr st self name with
  | Some (VList r) =>
      match lists st !! r with Some l => Some (r, l) | None => None end
  | _ => None
  end.

Definition set_list (st : store) (r : ref) (l : list value) : store :=
  {| class_dict := class_dict st;
     instances := instances st;
     lists := <[r := l]> (lists st) |}.

(** [self.<name>.append(callback)]; [None] when the attribute is missing. *)
Definition append_to (name : string) (self : obj) (cb : callback) (st : store)
  : option store :=
  match list_of st self name with
  | Some (r, l) => Some (set_list st r (l ++ [VFun cb]))
  | None => None
  end.

Definition add_message_callback := append_to message_callbacks_attr.


(** A call made to a registered callable. *)
Inductive invocation (dict : Type) :=
| OnMessage (f : callback) (topic : string) (payload : dict)
| OnConnected (f : callback).
Arguments OnMessage {dict} f topic payload.
Arguments OnConnected {dict} f.


(** The calls of [stop] into the MQTT library. *)
Inductive library_call := disconnect | loop_stop | close.

Section Handlers.

(** The value [json.loads] builds, and [json.loads(payload.decode())]
    itself: [None] when it raises. *)
Variable dict : Type.
Variable json_loads : list Byte.byte → option dict.

(** Whether a registered callable raises when it is called. *)
Variable raises : callback → bool.

(** A call into the MQTT library on the client [h]: whether it raises, and
    the attributes of the instance afterwards (the library may run the
    handlers of the instance before it returns). *)
Variable library : library_call → handle → attrs → attrs * bool.






(** [self.mqtt_client.<call>()]: the attribute is read again at each call;
    on a value that is not a library client the call raises. *)
Definition call_library (c : library_call) (d : attrs) : attrs * bool :=
  match d !! "mqtt_client"%string with
  | Some (VClient h) => library c h d
  | _ => (d, true)
  end.

(** The body of the [try] block of [stop], on the attributes of [self]. *)
Definition stop_try (cd : attrs) (d : attrs) : attrs :=
  let r1 := call_library disconnect d in
  if r1.2 then r1.1
  else
    let r2 := call_library loop_stop r1.1 in
    if r2.2 then r2.1
    else
      let connection_type :=
        match r2.1 !! "connection_type"%string with
        | Some v => Some v
        | None => cd !! "connection_type"%string
        end in
      match connection_type with
      | Some (VConn SERIAL_PORT) => (call_library close r2.1).1
      | _ => r2.1
      end.

(** [stop]; [None] when [self] is not an instance. *)
Definition stop (self : obj) (st : store) : option store :=
  match getattr st self "mqtt_client" with
  | None => None
  | Some VNone => Some st
  | Some _ =>
      let body := alter (stop_try (class_dict st)) self (instances st) in
      let st1 := {| class_dict := class_dict st; instances := body;
                    lists := lists st |} in
      let st2 := setattr st1 self "connected" (VBool false) in
      Some (setattr st2 self "is_starting" (VBool false))
  end.

End Handlers.

(** The stores in which the callback registries are as the class statement
    made them: the class holds the two list objects, and no instance has an
    attribute of its own under these names (no method assigns one). *)
Record registries_shared (st : store) : Prop := {
  class_messages : ∃ r, class_dict st !! message_callbacks_attr = Some (VList r)
                        ∧ is_Some (lists st !! r);
  class_connected : ∃ r, class_dict st !! connected_callbacks_attr = Some (VList r)
                         ∧ is_Some (lists st !! r);
  no_own_messages : ∀ o d, instances st !! o = Some d →
                           d !! message_callbacks_attr = None;
  no_own_connected : ∀ o d, instances st !! o = Some d →
                            d !! connected_callbacks_attr = None }.

Definition is_instance (st : store) (o : obj) : Prop :=
  is_Some (instances st !! o).

(** [f] is called with the message [msg]. *)
Definition invoked_on_message {dict} (f : callback)
    (calls : list (invocation dict)) : Prop :=
  ∃ t p, OnMessage f t p ∈ calls.

End Client.

(** ** More Python string primitives: joining and formatting *)

Module PyFormat.

(** [sep.join(l)] *)
Fixpoint join (sep : string) (l : list string) : string :=
  match l with
  | [] => EmptyString
  | [x] => x
  | x :: r => x +:+ sep +:+ join sep r
  end.

(** [n] copies of the character [c]. *)
Fixpoint fill (c : ascii) (n : nat) : string :=
  match n with
  | O => EmptyString
  | S n' => String c (fill c n')
  end.

(** [f"{s:<width}"]: padded with spaces on the right. *)
Definition ljust (width : nat) (s : string) : string :=
  s +:+ fill " " (width - String.length s).

(** [s.zfill(width)] for a string of digits: padded with zeros on the left. *)
Definition zfill (width : nat) (s : string) : string :=
  fill "0" (width - String.length s) +:+ s.

Definition hex_digit (n : nat) : ascii :=
  match n with
  | 0 => "0" | 1 => "1" | 2 => "2" | 3 => "3" | 4 => "4" | 5 => "5"
  | 6 => "6" | 7 => "7" | 8 => "8" | 9 => "9" | 10 => "a" | 11 => "b"
  | 12 => "c" | 13 => "d" | 14 => "e" | _ => "f"
  end%char.

(** The hexadecimal digits of [n], most significant first; [fuel] bounds
    the number of digits. *)
Fixpoint hex_digits (fuel n : nat) : string :=
  match fuel with
  | O => EmptyString
  | S fuel' =>
      if n <? 16 then String (hex_digit n) EmptyString
      else hex_digits fuel' (n / 16) +:+ String (hex_digit (n mod 16)) EmptyString
  end.

(** [f"{n:x}"] for a natural number. *)
Definition hex (n : nat) : string := hex_digits (S n) n.

(** [f"{n:0<width>x}"] *)
Definition format_x (width n : nat) : string := zfill width (hex n).

End PyFormat.

(** ** [hexdump] *)

Module Hexdump.
Import PyFormat.

Abbreviation bytes := (list Byte.byte).

(** [range(0, stop, step)] *)
Definition range_step (stop step : nat) : list nat :=
  (λ k, k * step) <$> seq 0 ((stop + step - 1) / step).

(** [" ".join(f"{byte:02x}" for byte in chunk)] *)
Definition hex_bytes (chunk : bytes) : string :=
  join " " ((λ b, format_x 2 (Byte.to_nat b)) <$> chunk).

(** [chr(byte) if 32 <= byte <= 126 else '.'] *)
Definition printable (b : Byte.byte) : ascii :=
  let n := Byte.to_nat b in
  if (32 <=? n) && (n <=? 126) then ascii_of_nat n else "."%char.

(** [str.join] with the empty separator, over the characters of [chunk] *)
Fixpoint ascii_bytes (chunk : bytes) : string :=
  match chunk with
  | [] => EmptyString
  | b :: r => String (printable b) (ascii_bytes r)
  end.

(** The line printed for the chunk at offset [i]. *)
Definition dump_line (prefix : string) (data : bytes) (i : nat) : string :=
  let chunk := take 16 (drop i data) in
  prefix +:+ " " +:+ format_x 4 i +:+ ": " +:+ ljust 48 (hex_bytes chunk)
  +:+ " " +:+ ascii_bytes chunk.

(** [hexdump(data, prefix)]: the lines it prints. *)
Definition hexdump (data : bytes) (prefix : string) : list string :=
  (dump_line prefix data <$> range_step (length data) 16) ++ ["EOF"%string].

(** *** Reading a dump back *)

Definition hex_value (c : ascii) : option nat :=
  let n := nat_of_ascii c in
  if (48 <=? n) && (n <=? 57) then Some (n - 48)
  else if (97 <=? n) && (n <=? 102) then Some (n - 87)
  else None.

Definition byte_of_hex (a b : ascii) : option Byte.byte :=
  match hex_value a, hex_value b with
  | Some h, Some l => Byte.of_nat (16 * h + l)
  | _, _ => None
  end.

Definition is_space (c : ascii) : bool := Ascii.eqb c " ".

(** The bytes written in a hex column: pairs of digits separated by one
    space, up to the padding. *)
Fixpoint unhex (s : string) : option bytes :=
  match s with
  | EmptyString => Some []
  | String a EmptyString => if is_space a then Some [] else None
  | String a (String b rest) =>
      if is_space a then Some []
      else
        match byte_of_hex a b with
        | None => None
        | Some x =>
            match rest with
            | EmptyString => Some [x]
            | String c rest' =>
                if is_space c then
                  match unhex rest' with
                  | Some xs => Some (x :: xs)
                  | None => None
                  end
                else None
            end
        end
  end.

Fixpoint skip (n : nat) (s : string) : string :=
  match n, s with
  | S n', String _ r => skip n' r
  | _, _ => s
  end.

Fixpoint first (n : nat) (s : string) : string :=
  match n, s with
  | S n', String c r => String c (first n' r)
  | _, _ => EmptyString
  end.

(** What follows the first [": "] of [s]. *)
Fixpoint after_colon (s : string) : string :=
  match s with
  | EmptyString => EmptyString
  | String c r => if Ascii.eqb c ":" then skip 1 r else after_colon r
  end.

(** The 48 columns of hexadecimal of a line printed with [prefix]. *)
Definition hex_column (prefix : string) (line : string) : string :=
  first 48 (after_colon (skip (String.length prefix + 1) line)).

(** The bytes of a dump printed with [prefix]: those of the hex columns of
    all lines but the last. *)
Fixpoint undump (prefix : string) (lines : list string) : option bytes :=
  match lines with
  | [] => None
  | [last] => if String.eqb last "EOF" then Some [] else None
  | line :: rest =>
      match unhex (hex_column prefix line), undump prefix rest with
      | Some xs, Some ys => Some (xs ++ ys)
      | _, _ => None
      end
  end.

End Hexdump.

(** ** More on the tunnel worker *)

Module TunnelMore.
Import Tunnel.

Definition returns {A} (a : answer A) : bool :=
  match a with Returns _ => true | _ => false end.

(** Whether, in this environment, the [try] block gets as far as the
    assignment of [client_sock]: the two sockets are created, the client
    socket connects and [select] on it does not raise. *)
Definition assigns_client_sock (env : attempt_env) : bool :=
  returns (env_socket env Broker) && returns (env_socket env Client)
  && returns (env_connect env Client) && returns (env_client_wait env).

(** Closing a socket and the pause of one second: what only the
    [finally] block does. *)
Definition tears_down (a : action) : bool :=
  match a with AClose _ | ASleep _ => true | _ => false end.

(** What a well-behaved relay pass asks of the operating system. *)
Definition well_formed_call (c : call) : Prop :=
  match c with
  | CSelect rlist wlist _ => rlist = [Client; Broker] ∧ NoDup wlist
  | CRecv _ bufsize _ => bufsize = 4096
  | CSend _ buf _ => buf ≠ []
  end.

End TunnelMore.

(** ** More of [MqttClient]: subscriptions, callbacks removal, [start] *)

Module ClientOps.
Import Client.

#[global] Instance ConnectionType_eq_dec : EqDecision ConnectionType.
Proof. solve_decision. Defined.

#[global] Instance value_eq_dec : EqDecision value.
Proof. solve_decision. Defined.

(** [l.remove(x)]: [l] without its first item equal to [x]; [None] when
    there is none ([ValueError]). *)
Fixpoint remove_first (x : value) (l : list value) : option (list value) :=
  match l with
  | [] => None
  | y :: r =>
      if decide (y = x) then Some r
      else match remove_first x r with
           | Some r' => Some (y :: r')
           | None => None
           end
  end.

(** [del_message_callback]; [None] when it raises. *)
Definition del_message_callback (self : obj) (cb : callback) (st : store)
  : option store :=
  match list_of st self message_callbacks_attr with
  | Some (r, l) =>
      match remove_first (VFun cb) l with
      | Some l' => Some (set_list st r l')
      | None => None
      end
  | None => None
  end.

(** The exceptions of the subscription methods: from [list.remove], from
    a call on [None], from the MQTT library. *)
Inductive error := ValueError | AttributeError | LibraryError.

(** The calls into the MQTT library. *)
Inductive mqtt_call :=
| Subscribe (h : handle) (topic : value)
| Unsubscribe (h : handle) (topic : value)
| NewClient (h : handle) (serial : bool) (client_id : option value)
    (transport : option string)
| SetHandlers (h : handle) (on_connection_lost on_log : bool)
| Connect (h : handle) (host : option value) (port : option nat)
    (keepalive : nat)
| LoopStart (h : handle).

(** What a method did: the store it leaves, the library calls it made, and
    the exception that left it, if any. *)
Record effect := {
  after : store;
  calls : list mqtt_call;
  raised : option error }.

Section Library.

(** Whether a call into the library raises. *)
Variable lib_raises : mqtt_call → bool.

(** [self.mqtt_client.<call>], where the call is made on the client [h]. *)
Definition on_client (st : store) (self : obj) (call : handle → mqtt_call)
  : effect :=
  match getattr st self "mqtt_client" with
  | Some (VClient h) =>
      {| after := st; calls := [call h];
         raised := if lib_raises (call h) then Some LibraryError else None |}
  | _ => {| after := st; calls := []; raised := Some AttributeError |}
  end.

(** [subscribe] *)
Definition subscribe (self : obj) (topic : value) (st : store) : effect :=
  match list_of st self subscriptions_attr with
  | None => {| after := st; calls := []; raised := Some AttributeError |}
  | Some (r, l) =>
      on_client (set_list st r (l ++ [topic])) self (λ h, Subscribe h topic)
  end.

(** [unsubscribe] *)
Definition unsubscribe (self : obj) (topic : value) (st : store) : effect :=
  match list_of st self subscriptions_attr with
  | None => {| after := st; calls := []; raised := Some AttributeError |}
  | Some (r, l) =>
      match remove_first topic l with
      | None => {| after := st; calls := []; raised := Some ValueError |}
      | Some l' => on_client (set_list st r l') self (λ h, Unsubscribe h topic)
      end
  end.

(** The [for topic in self.__subscriptions] loop of [unsubscribe_all]: the
    iterator holds the list object [r] and the index [i] of the next item;
    [fuel] bounds the number of passes. *)
Fixpoint unsubscribe_loop (fuel : nat) (r : ref) (i : nat) (self : obj)
    (st : store) : option effect :=
  match fuel with
  | O => None
  | S fuel' =>
      match lists st !! r with
      | None => Some {| after := st; calls := []; raised := Some AttributeError |}
      | Some l =>
          match l !! i with
          | None => Some {| after := st; calls := []; raised := None |}
          | Some topic =>
              let u := unsubscribe self topic st in
              match raised u with
              | Some e => Some u
              | None =>
                  match unsubscribe_loop fuel' r (S i) self (after u) with
                  | Some v =>
                      Some {| after := after v; calls := calls u ++ calls v;
                              raised := raised v |}
                  | None => None
                  end
              end
          end
      end
  end.

(** [unsubscribe_all]; the loop makes at most one pass per item of the
    list it starts from. *)
Definition unsubscribe_all (self : obj) (st : store) : option effect :=
  match list_of st self subscriptions_attr with
  | None => Some {| after := st; calls := []; raised := Some AttributeError |}
  | Some (r, l) => unsubscribe_loop (S (length l)) r 0 self st
  end.

(** The items of a list at the even positions 0, 2, 4, ... and at the odd
    positions 1, 3, 5, ... *)
Fixpoint evens (l : list value) : list value :=
  match l with
  | x :: _ :: r => x :: evens r
  | l' => l'
  end.

Fixpoint odds (l : list value) : list value :=
  match l with
  | _ :: y :: r => y :: odds r
  | _ => []
  end.

(** The truth value of an attribute that holds a boolean. *)
Definition truthy (v : option value) : bool :=
  match v with Some (VBool true) => true | _ => false end.

(** [__get_transport_type] *)
Definition get_transport_type (connection_type : option value) : string :=
  match connection_type with
  | Some (VConn TCP_DEBUG) => "tcp"
  | _ => "unix"
  end.

(** [start], where [h] names the client object it creates.  In the branch
    of the serial port [connect] is outside the [try] block. *)
Definition start (h : handle) (self : obj) (st : store) : effect :=
  if truthy (getattr st self "is_starting") || truthy (getattr st self "connected")
  then {| after := st; calls := []; raised := None |}
  else
    let st1 := setattr st self "is_starting" (VBool true) in
    let st2 := setattr st1 self "mqtt_client" (VClient h) in
    let on_log := truthy (getattr st self debugging_attr) in
    let connection_type := getattr st self "connection_type" in
    match connection_type with
    | Some (VConn SERIAL_PORT) =>
        let c := Connect h (Some (VStr "localhost")) (Some 1) 5 in
        let made := [NewClient h true (getattr st self "identifier") None;
                     SetHandlers h true on_log; c] in
        if lib_raises c
        then {| after := st2; calls := made; raised := Some LibraryError |}
        else {| after := st2; calls := made ++ [LoopStart h]; raised := None |}
    | _ =>
        let made := [NewClient h false (getattr st self "identifier")
                       (Some (get_transport_type connection_type));
                     SetHandlers h false on_log] in
        let connect :=
          match connection_type with
          | Some (VConn TCP_DEBUG) =>
              Some (Connect h (Some (VStr "localhost")) None 30)
          | Some (VConn UNIX_SOCKET) =>
              Some (Connect h (getattr st self "connection_string") (Some 1) 30)
          | _ => None
          end in
        match connect with
        | None => {| after := st2; calls := made; raised := None |}
        | Some c =>
            if lib_raises c
            then {| after := st2; calls := made ++ [c]; raised := None |}
            else {| after := st2; calls := made ++ [c; LoopStart h];
                    raised := None |}
        end
    end.

(** [__on_connection_lost] *)
Definition on_connection_lost (h : handle) (self : obj) (st : store) : effect :=
  let st1 := setattr st self "is_starting" (VBool false) in
  let st2 := setattr st1 self "connected" (VBool false) in
  start h self st2.

End Library.

End ClientOps.

(** ** The loop of [SerialMQTTClient] *)

Module SerialLoop.

(** The return codes of the MQTT library that the loop tells apart. *)
Inductive MQTTErrorCode :=
| MQTT_ERR_SUCCESS | MQTT_ERR_CONN_LOST | MQTT_ERR_OTHER.

#[global] Instance MQTTErrorCode_eq_dec : EqDecision MQTTErrorCode.
Proof. solve_decision. Defined.

(** The two values the variable [timeout] takes: [1.0] and [0.0]. *)
Inductive timeout := one_second | no_wait.

(** What one pass of the loop meets: the flag [_thread_terminate], whether
    [_sock] is [None], the values of [pending()] and [in_waiting()],
    whether [select] reports the socket, whether the client wants to
    write, and the return codes of [loop_read], [loop_write] and
    [loop_misc].  A value is used only when the pass asks for it. *)
Record pass := {
  thread_terminate : bool;
  sock_is_none : bool;
  pending : nat;
  select_reports : bool;
  in_waiting : nat;
  loop_read : MQTTErrorCode;
  want_write : bool;
  loop_write : MQTTErrorCode;
  loop_misc : MQTTErrorCode }.

(** What the loop does, as seen from outside. *)
Inductive did :=
| Select (t : timeout)
| LoopRead
| LoopWrite
| LoopMisc
| OnConnectionLost.

(** How [__do_loop] stands after the passes supplied: it returned, and
    why, or it is still looping, with the current value of [timeout]. *)
Inductive loop_end :=
| Terminated
| NoSocket
| ReadError (rc : MQTTErrorCode)
| WriteError (rc : MQTTErrorCode)
| MiscError (rc : MQTTErrorCode)
| Looping (t : timeout).

(** [if self.on_connection_lost is not None: self.on_connection_lost()] *)
Definition notify (has_callback : bool) : list did :=
  if has_callback then [OnConnectionLost] else [].

(** The [while] loop of [__do_loop]; [has_callback] tells whether
    [on_connection_lost] is set. *)
Fixpoint do_loop (has_callback : bool) (t : timeout) (passes : list pass)
  : loop_end * list did :=
  match passes with
  | [] => (Looping t, [])
  | p :: rest =>
      if thread_terminate p then (Terminated, [])
      else if sock_is_none p then (NoSocket, notify has_callback)
      else
        let t := if 0 <? pending p then no_wait else t in
        let reads := select_reports p && (0 <? in_waiting p) in
        if reads && negb (bool_decide (loop_read p = MQTT_ERR_SUCCESS))
        then (ReadError (loop_read p), [Select t; LoopRead])
        else
          let read := if reads then [LoopRead] else [] in
          if want_write p && negb (bool_decide (loop_write p = MQTT_ERR_SUCCESS))
          then (WriteError (loop_write p), [Select t] ++ read ++ [LoopWrite])
          else
            let write := if want_write p then [LoopWrite] else [] in
            let done := [Select t] ++ read ++ write ++ [LoopMisc] in
            if bool_decide (loop_misc p = MQTT_ERR_SUCCESS) then
              let r := do_loop has_callback t rest in (r.1, done ++ r.2)
            else
              (MiscError (loop_misc p),
               done ++ (if bool_decide (loop_misc p = MQTT_ERR_CONN_LOST)
                        then notify has_callback else []))
      end.

(** [__do_loop]: [timeout] starts at [1.0]. *)
Definition run_loop (has_callback : bool) (passes : list pass)
  : loop_end * list did :=
  do_loop has_callback one_second passes.

End SerialLoop.

Module SerialLoopSpec.
Import SerialLoop.

(** The timeouts of the successive [select] calls. *)
Definition select_timeouts (log : list did) : list timeout :=
  omap (λ d, match d with Select t => Some t | _ => None end) log.

End SerialLoopSpec.

(** * Properties *)

(** ** Discovery *)

Module DiscoveryFacts.
Import Discovery.

Lemma split_not_nil sep s : PyStr.split sep s ≠ [].
Proof.
  destruct s as [|c r]; simpl; [done|].
  destruct (Ascii.eqb c sep); [done|].
  by destruct (PyStr.split sep r).
Qed.

Lemma listing_not_nil stdout : listing stdout ≠ [].
Proof. apply split_not_nil. Qed.


Example listing_empty_output : listing EmptyString = [EmptyString].
Proof. reflexivity. Qed.

Example wait_on_empty_output :
  wait_for_broker_socket [EmptyString]
  = Some {| returned := true; sleeps := 0 |}.
Proof. reflexivity. Qed.

(** C3.  [wait_for_broker_socket] returns [True] at its first poll, without
    sleeping, whatever the [find] command printed: also when it printed
    nothing, so that no broker socket entry was observed. *)
Theorem wait_for_broker_socket_never_waits (stdout : string) (rest : list string) :
  wait_for_broker_socket (stdout :: rest)
  = Some {| returned := true; sleeps := 0 |}
  ∧ wait_for_broker_socket (EmptyString :: rest)
    = Some {| returned := true; sleeps := 0 |}
  ∧ listing EmptyString = [EmptyString].
Proof.
  assert (∀ o, wait_for_broker_socket (o :: rest)
               = Some {| returned := true; sleeps := 0 |}) as H.
  { intros o. simpl. pose proof (listing_not_nil o) as Hne.
    by destruct (listing o). }
  by rewrite !H.
Qed.

(** *** The watcher *)

Lemma start_tunnels_files l n :
  th_file <$> (start_tunnels l n).1 = filter (λ f, f ≠ EmptyString) l.
Proof.
  revert n. induction l as [|f l IH]; intros n; simpl; [done|].
  rewrite filter_cons. destruct (decide (f = EmptyString)) as [->|Hf].
  - rewrite decide_False; [apply IH | by intros []].
  - rewrite decide_True; [|done]. simpl. by rewrite IH.
Qed.

Lemma start_tunnels_slots l n :
  th_slot <$> (start_tunnels l n).1 = seqZ n (Z.of_nat (length (start_tunnels l n).1))
  ∧ (start_tunnels l n).2 = (n + Z.of_nat (length (start_tunnels l n).1))%Z.
Proof.
  revert n. induction l as [|f l IH]; intros n; simpl.
  - split; [done | lia].
  - destruct (decide (f = EmptyString)); [apply IH|]. csimpl.
    destruct (IH (n + 1)%Z) as [IH1 IH2]. split.
    + rewrite IH1. rewrite (seqZ_cons n) by lia.
      f_equal. f_equal; lia.
    + rewrite IH2. lia.
Qed.

Lemma workers_for_files f ths :
  workers_for f ths = length (filter (λ g, g = f) (th_file <$> ths)).
Proof.
  unfold workers_for. induction ths as [|t ths IH]; simpl; [done|].
  rewrite !filter_cons. destruct (decide (th_file t = f)); simpl; by rewrite IH.
Qed.

Lemma workers_for_app f l1 l2 :
  workers_for f (l1 ++ l2) = workers_for f l1 + workers_for f l2.
Proof. unfold workers_for. by rewrite filter_app, length_app. Qed.

Lemma count_not_in (f : string) (l : list string) :
  f ∉ l → length (filter (λ g, g = f) l) = 0.
Proof.
  induction l as [|x l IH]; intros Hf; [done|].
  apply not_elem_of_cons in Hf as [Hne Hf].
  rewrite filter_cons, decide_False by done. by apply IH.
Qed.

Lemma count_NoDup_in (f : string) (l : list string) :
  NoDup l → f ∈ l → length (filter (λ g, g = f) l) = 1.
Proof.
  induction 1 as [|x l Hx Hl IH]; intros Hin; [by apply elem_of_nil in Hin|].
  rewrite filter_cons. destruct (decide (x = f)) as [->|Hne].
  - simpl. f_equal. by apply count_not_in.
  - apply elem_of_cons in Hin as [->|Hin]; [done|]. by apply IH.
Qed.

Section WatchFacts.

Variable set_iter : gset string → list string.

(** A [for] loop over a set visits each of its elements once. *)
Hypothesis set_iter_visits : ∀ X, set_iter X ≡ₚ elements X.

Lemma set_iter_NoDup X : NoDup (set_iter X).
Proof. rewrite set_iter_visits. apply NoDup_elements. Qed.

Lemma elem_of_set_iter f X : f ∈ set_iter X ↔ f ∈ X.
Proof. rewrite set_iter_visits. apply elem_of_elements. Qed.

Lemma poll_files stdout w :
  th_file <$> (poll set_iter stdout w).1
  = filter (λ f, f ≠ EmptyString)
      (set_iter (list_to_set (listing stdout) ∖ sockets w)).
Proof. unfold poll. simpl. apply start_tunnels_files. Qed.

Lemma poll_files_NoDup stdout w : NoDup (th_file <$> (poll set_iter stdout w).1).
Proof. rewrite poll_files. apply NoDup_filter, set_iter_NoDup. Qed.

Lemma elem_of_poll_files f stdout w :
  f ∈ th_file <$> (poll set_iter stdout w).1
  ↔ f ≠ EmptyString ∧ f ∈ listing stdout ∧ f ∉ sockets w.
Proof.
  rewrite poll_files, list_elem_of_filter, elem_of_set_iter.
  rewrite elem_of_difference, elem_of_list_to_set. tauto.
Qed.

Lemma poll_sockets stdout w :
  sockets (poll set_iter stdout w).2
  = sockets w ∪ list_to_set (listing stdout).
Proof. done. Qed.

Lemma poll_counter stdout w :
  n_socket (poll set_iter stdout w).2
  = (n_socket w + Z.of_nat (length (poll set_iter stdout w).1))%Z.
Proof. unfold poll. simpl. apply start_tunnels_slots. Qed.

Lemma poll_slots stdout w :
  th_slot <$> (poll set_iter stdout w).1
  = seqZ (n_socket w) (Z.of_nat (length (poll set_iter stdout w).1)).
Proof. unfold poll. simpl. apply start_tunnels_slots. Qed.

Lemma watch_sockets_mono outs w :
  sockets w ⊆ sockets (watch_msg_sockets set_iter outs w).2.
Proof.
  revert w. induction outs as [|o outs IH]; intros w; [done|].
  cbn [watch_msg_sockets fst snd].
  etrans; [|apply IH]. rewrite poll_sockets. set_solver.
Qed.

Lemma watch_known_not_started f outs w :
  f ∈ sockets w → f ∉ th_file <$> (watch_msg_sockets set_iter outs w).1.
Proof.
  revert w. induction outs as [|o outs IH]; intros w Hf;
    cbn [watch_msg_sockets fst snd].
  - apply not_elem_of_nil.
  - rewrite fmap_app, elem_of_app. intros [H|H].
    + apply elem_of_poll_files in H. tauto.
    + revert H. apply IH. rewrite poll_sockets. set_solver.
Qed.

Lemma watch_slots outs w :
  th_slot <$> (watch_msg_sockets set_iter outs w).1
  = seqZ (n_socket w) (Z.of_nat (length (watch_msg_sockets set_iter outs w).1))
  ∧ n_socket (watch_msg_sockets set_iter outs w).2
    = (n_socket w + Z.of_nat (length (watch_msg_sockets set_iter outs w).1))%Z.
Proof.
  revert w. induction outs as [|o outs IH]; intros w;
    cbn [watch_msg_sockets fst snd].
  - split; [done | simpl; lia].
  - destruct (IH (poll set_iter o w).2) as [IH1 IH2].
    rewrite fmap_app, length_app, IH1, IH2, poll_slots, poll_counter.
    split; [|lia].
    rewrite Nat2Z.inj_add, seqZ_app by lia. done.
Qed.

Lemma set_iter_empty : set_iter ∅ = [].
Proof. apply Permutation_nil_r. by rewrite set_iter_visits, elements_empty. Qed.

Lemma poll_again_starts_nothing stdout w :
  (poll set_iter stdout (poll set_iter stdout w).2).1 = [].
Proof.
  unfold poll at 1. cbn [fst snd]. rewrite poll_sockets.
  replace (list_to_set (listing stdout)
           ∖ (sockets w ∪ list_to_set (listing stdout))) with (∅ : gset string)
    by set_solver.
  by rewrite set_iter_empty.
Qed.



(** A name [f] that the listing shows and the discovery set does not
    hold gets exactly one worker at this poll and enters the set; polling
    again on the same listing starts nothing; the set only grows; and
    whatever the later listings are, [f] never gets another worker, and no
    two workers get the same slot. *)
Theorem new_name_gets_one_worker (w : watcher) (stdout : string)
    (later : list string) (f : string) :
  f ≠ EmptyString → f ∉ sockets w → f ∈ listing stdout →
  let p := poll set_iter stdout w in
  let r := watch_msg_sockets set_iter later p.2 in
  workers_for f p.1 = 1
  ∧ f ∈ sockets p.2
  ∧ (poll set_iter stdout p.2).1 = []
  ∧ sockets w ⊆ sockets p.2 ∧ sockets p.2 ⊆ sockets r.2
  ∧ workers_for f r.1 = 0
  ∧ NoDup (th_slot <$> (p.1 ++ r.1)).
Proof.
  intros Hne Hnew Hin p r.
  assert (f ∈ sockets p.2) as Hp.
  { subst p. rewrite poll_sockets, elem_of_union, elem_of_list_to_set. auto. }
  split_and!.
  - rewrite workers_for_files. apply count_NoDup_in; [apply poll_files_NoDup|].
    by apply elem_of_poll_files.
  - done.
  - apply poll_again_starts_nothing.
  - subst p. rewrite poll_sockets. set_solver.
  - apply watch_sockets_mono.
  - rewrite workers_for_files. apply count_not_in.
    by apply watch_known_not_started.
  - change (p.1 ++ r.1)
      with (watch_msg_sockets set_iter (stdout :: later) w).1.
    rewrite (proj1 (watch_slots _ _)). apply NoDup_seqZ.
Qed.


(** While the output of [find] decodes, the loop is the one over the
    outputs; a listing that does not decode ends it, and what the later
    listings show gets no worker. *)
Lemma watch_runs_decoded outs w :
  watch_runs set_iter (Stdout <$> outs) w
  = (watch_msg_sockets set_iter outs w, true).
Proof.
  revert w. induction outs as [|o outs IH]; intros w; [done|].
  rewrite fmap_cons. cbn [watch_runs watch_msg_sockets].
  by rewrite IH.
Qed.

Lemma undecodable_listing_ends_watcher outs later w :
  watch_runs set_iter ((Stdout <$> outs) ++ DecodeError :: later) w
  = (watch_msg_sockets set_iter outs w, false).
Proof.
  revert w. induction outs as [|o outs IH]; intros w.
  - cbn [fmap list_fmap app watch_runs watch_msg_sockets].
    by destruct w.
  - rewrite fmap_cons. cbn [app watch_runs watch_msg_sockets].
    by rewrite IH.
Qed.

End WatchFacts.

(** The order in which the sets are visited changes neither the names that
    get a worker nor the state of the watcher. *)
Lemma poll_any_order (set_iter : gset string → list string)
    (stdout : string) (w : watcher) :
  (∀ X, set_iter X ≡ₚ elements X) →
  th_file <$> (poll set_iter stdout w).1
  ≡ₚ th_file <$> (poll elements stdout w).1
  ∧ (poll set_iter stdout w).2 = (poll elements stdout w).2.
Proof.
  intros Hv.
  assert (th_file <$> (poll set_iter stdout w).1
          ≡ₚ th_file <$> (poll elements stdout w).1) as Hp.
  { rewrite (poll_files set_iter), (poll_files elements). by rewrite Hv. }
  split; [done|].
  pose proof (poll_counter set_iter stdout w) as H1.
  pose proof (poll_counter elements stdout w) as H2.
  apply Permutation_length in Hp. rewrite !length_fmap in Hp.
  rewrite Hp, <-H2 in H1.
  destruct (poll set_iter stdout w) as [t1 [s1 n1]] eqn:E1.
  destruct (poll elements stdout w) as [t2 [s2 n2]] eqn:E2.
  cbn [fst snd Discovery.n_socket] in *. subst n1. f_equal.
  pose proof (poll_sockets set_iter stdout w) as Hs1.
  pose proof (poll_sockets elements stdout w) as Hs2.
  rewrite E1 in Hs1. rewrite E2 in Hs2. cbn [snd sockets] in *. congruence.
Qed.

Lemma watch_any_order (set_iter : gset string → list string)
    (outs : list string) (w : watcher) :
  (∀ X, set_iter X ≡ₚ elements X) →
  th_file <$> (watch_msg_sockets set_iter outs w).1
  ≡ₚ th_file <$> (watch_msg_sockets elements outs w).1
  ∧ (watch_msg_sockets set_iter outs w).2
    = (watch_msg_sockets elements outs w).2.
Proof.
  intros Hv. revert w. induction outs as [|o outs IH]; intros w; [done|].
  cbn [watch_msg_sockets fst snd].
  destruct (poll_any_order set_iter o w Hv) as [Hp ->].
  destruct (IH (poll elements o w).2) as [Hr ->].
  split; [|done]. rewrite !fmap_app. by f_equiv.
Qed.

(** C4.  The directory [/tmp] holds the one file [x ], whose name ends in
    a space, and later also the file [y].  At the first poll [strip] takes
    the space of the last line away with the newline, and a worker is
    started for [/tmp/x], which is no file.  At the second poll the line is
    no longer the last, the name shows with its space, is new to the
    discovery set, and the same file gets a second worker and a second
    slot: four workers and four slots for the three paths. *)
Theorem name_ending_in_space_gets_two_workers
    (set_iter : gset string → list string) :
  (∀ X, set_iter X ≡ₚ elements X) →
  let before := ["/tmp"; "/tmp/x "]%string in
  let after := ["/tmp"; "/tmp/x "; "/tmp/y"]%string in
  let r := watch_msg_sockets set_iter [find_stdout before; find_stdout after]
             watcher_init in
  listing (find_stdout before) = ["/tmp"; "/tmp/x"]%string
  ∧ listing (find_stdout after) = after
  ∧ workers_for "/tmp/x" r.1 = 1
  ∧ workers_for "/tmp/x " r.1 = 1
  ∧ length r.1 = 4
  ∧ Discovery.n_socket r.2 = 5%Z.
Proof.
  intros Hv before after r.
  destruct (watch_any_order set_iter
              [find_stdout before; find_stdout after] watcher_init Hv)
    as [Hp Hs].
  fold r in Hp, Hs.
  split_and!.
  - by vm_compute.
  - by vm_compute.
  - rewrite workers_for_files, Hp. by vm_compute.
  - rewrite workers_for_files, Hp. by vm_compute.
  - rewrite <-(length_fmap th_file), Hp. by vm_compute.
  - rewrite Hs. by vm_compute.
Qed.

Lemma name_ending_in_space_gets_two_workers_witness :
  let r := watch_msg_sockets elements
             [find_stdout ["/tmp"; "/tmp/x "]%string;
              find_stdout ["/tmp"; "/tmp/x "; "/tmp/y"]%string]
             watcher_init in
  (∀ X : gset string, elements X ≡ₚ elements X)
  ∧ workers_for "/tmp/x" r.1 = 1
  ∧ workers_for "/tmp/x " r.1 = 1
  ∧ length r.1 = 4.
Proof.
  intros r. split; [done|].
  pose proof (name_ending_in_space_gets_two_workers elements
                (λ X, reflexivity _)) as (_ & _ & H1 & H2 & H3 & _).
  by split_and!.
Defined.

Lemma new_name_gets_one_worker_witness :
  let f := "/tmp/app_1.sock"%string in
  let p := poll elements f watcher_init in
  f ∈ listing f
  ∧ workers_for f p.1 = 1
  ∧ workers_for f (watch_msg_sockets elements [f; EmptyString; f] p.2).1 = 0.
Proof.
  intros f p.
  assert (f ∈ listing f) as Hin by (vm_compute; apply list_elem_of_here).
  split; [done|].
  pose proof (new_name_gets_one_worker elements (λ X, reflexivity _)
                watcher_init f [f; EmptyString; f] f) as H.
  destruct H as (H1 & _ & _ & _ & _ & H2 & _);
    [done | apply not_elem_of_empty | done |].
  by split.
Defined.


End DiscoveryFacts.

(** ** The relay loop *)

Module RelayFacts.
Import Tunnel.

Lemma received_from_app s l1 l2 :
  received_from s (l1 ++ l2) = received_from s l1 ++ received_from s l2.
Proof.
  induction l1 as [|c l1 IH]; [done|].
  destruct c as [| s' n [d| |] | ]; simpl; try done.
  destruct (decide (s' = s)); [|done]. by rewrite IH, app_assoc.
Qed.

Lemma delivered_to_app s l1 l2 :
  delivered_to s (l1 ++ l2) = delivered_to s l1 ++ delivered_to s l2.
Proof.
  induction l1 as [|c l1 IH]; [done|].
  destruct c as [| | s' buf [n| |]]; simpl; try done.
  destruct (decide (s' = s)); [|done]. by rewrite IH, app_assoc.
Qed.

(** What one guarded [recv] adds to the streams. *)
Lemma recv_step_streams (c : bool) s' a buf :
  let m := if c then recv_into s' a buf else ret buf in
  (∀ s, delivered_to s m.2 = [])
  ∧ received_from (other s') m.2 = []
  ∧ (∀ x, m.1 = Next x → x = buf ++ received_from s' m.2).
Proof.
  destruct c; simpl.
  - destruct a as [[|d0 d]| |]; simpl; (split; [done|]);
      (split; [destruct s'; done|]); intros x [= <-];
      rewrite ?decide_True, ?app_nil_r by done; done.
  - split; [done|]. split; [done|]. intros x [= <-]. by rewrite app_nil_r.
Qed.

(** What one guarded [send] adds to the streams: the bytes accepted are a
    prefix of the buffer offered, and the buffer kept is the rest. *)
Lemma send_step_streams (c : bool) s' a buf :
  let m := if c then send_from s' a buf else ret buf in
  (∀ s, received_from s m.2 = [])
  ∧ delivered_to (other s') m.2 = []
  ∧ ∃ rest, delivered_to s' m.2 ++ rest = buf ∧ ∀ x, m.1 = Next x → x = rest.
Proof.
  destruct c; simpl.
  - destruct a as [n| |]; simpl; (split; [done|]);
      (split; [destruct s'; done|]).
    + exists (drop n buf). rewrite decide_True, app_nil_r by done.
      split; [apply take_drop | by intros x [= <-]].
    + exists buf. split; [done | by intros x [= <-]].
    + exists buf. split; [done | by intros x [=]].
  - split; [done|]. split; [done|]. exists buf. split; [done | by intros x [= <-]].
Qed.

Lemma received_from_select s rl wl a l :
  received_from s (CSelect rl wl a :: l) = received_from s l.
Proof. done. Qed.

Lemma delivered_to_select s rl wl a l :
  delivered_to s (CSelect rl wl a :: l) = delivered_to s l.
Proof. done. Qed.

Ltac use_recv_step H :=
  match goal with
  | |- context [if ?c then recv_into ?s' ?a ?buf else ret ?buf] =>
      pose proof (recv_step_streams c s' a buf) as H; cbv zeta in H;
      destruct (if c then recv_into s' a buf else ret buf) as [[?| |] ?];
      cbn [fst snd] in H |- *
  end.

Ltac use_send_step H :=
  match goal with
  | |- context [if ?c then send_from ?s' ?a ?buf else ret ?buf] =>
      pose proof (send_step_streams c s' a buf) as H; cbv zeta in H;
      destruct (if c then send_from s' a buf else ret buf) as [[?| |] ?];
      cbn [fst snd] in H |- *
  end.

Ltac streams_facts :=
  repeat match goal with
    | H : _ ∧ _ |- _ => destruct H
    | H : ∃ _, _ |- _ => destruct H
    | H : ∀ x, Next ?a = Next x → x = _ |- _ => specialize (H a eq_refl)
    | H : ∀ x, Break = Next x → _ |- _ => clear H
    | H : ∀ x, Throw _ = Next x → _ |- _ => clear H
    end;
  cbn [other ret fst snd buffer_to] in *;
  rewrite ?delivered_to_app, ?received_from_app,
    ?delivered_to_select, ?received_from_select;
  repeat match goal with
    | H : ∀ s, delivered_to s ?l = [] |- _ => rewrite ?H; clear H
    | H : ∀ s, received_from s ?l = [] |- _ => rewrite ?H; clear H
    | H : delivered_to _ ?l = [] |- _ => rewrite ?H; clear H
    | H : received_from _ ?l = [] |- _ => rewrite ?H; clear H
    end;
  cbn [app]; rewrite ?app_nil_r; subst.

Ltac streams_close :=
  streams_facts;
  first
    [ eexists; split; [eassumption|]; by intros ? [= <-]
    | eexists; split; [reflexivity|]; by intros ? [= <-] ].

(** The streams over one pass: towards each side, the bytes delivered
    followed by some rest are the old buffer followed by the bytes read on
    the other side; when the pass completes, the rest is the new buffer. *)
Lemma pass_streams s ev b :
  let p := relay_pass ev b in
  ∃ rest,
    delivered_to s p.2 ++ rest = buffer_to s b ++ received_from (other s) p.2
    ∧ ∀ b', p.1 = Next b' → rest = buffer_to s b'.
Proof.
  unfold relay_pass.
  destruct (ev_select ev) as [r| |];
    [| exists (buffer_to s b); simpl; rewrite app_nil_r; by split..].
  unfold bind; cbn [fst snd].
  use_recv_step HA; [|destruct s; streams_close..].
  use_recv_step HB; [|destruct s; streams_close..].
  use_send_step HC; [|destruct s; streams_close..].
  use_send_step HD; destruct s; streams_close.
Qed.

(** The same over a whole session, however it stands at the end. *)
Lemma relay_streams s evs b :
  let r := relay evs b in
  ∃ rest,
    delivered_to s r.2 ++ rest = buffer_to s b ++ received_from (other s) r.2
    ∧ ∀ b', r.1 = Relaying b' → rest = buffer_to s b'.
Proof.
  revert b. induction evs as [|ev evs IH]; intros b; cbn [relay].
  - exists (buffer_to s b). simpl. rewrite app_nil_r. split; [done|].
    by intros b' [= <-].
  - destruct (pass_streams s ev b) as (rest & Heq & Hrest).
    destruct (relay_pass ev b) as [[b1| |] lp]; cbn [fst snd] in *.
    + destruct (IH b1) as (rest' & Heq' & Hrest').
      exists rest'. split; [|done].
      rewrite delivered_to_app, received_from_app.
      rewrite (Hrest b1 eq_refl) in Heq.
      rewrite <-app_assoc, Heq', !app_assoc. by rewrite Heq.
    + exists rest. by split.
    + exists rest. by split.
Qed.

Lemma relay_app evs more b b1 :
  (relay evs b).1 = Relaying b1 →
  relay (evs ++ more) b
  = ((relay more b1).1, (relay evs b).2 ++ (relay more b1).2).
Proof.
  revert b. induction evs as [|ev evs IH]; intros b; cbn [relay app].
  - intros [= <-]. by destruct (relay more b).
  - destruct (relay_pass ev b) as [[b2| |] lp]; cbn [fst snd]; [|done..].
    intros H. rewrite (IH _ H). cbn [fst snd]. by rewrite app_assoc.
Qed.

(** A pass in which the transport towards [s] makes progress completes,
    and delivers at least one byte unless the buffer towards [s] was empty
    when the pass began. *)
Lemma pass_progress s ev b :
  progress_to s ev = true →
  ∃ b', (relay_pass ev b).1 = Next b'
        ∧ (buffer_to s b = [] ∨ 1 ≤ length (delivered_to s (relay_pass ev b).2)).
Proof.
  unfold progress_to, relay_pass.
  destruct ev as [sel rcv snd]; cbn [ev_select ev_recv ev_send].
  destruct sel as [[rc rb wc wb]| |]; [|done..].
  intros H. repeat (apply andb_prop in H as [H ?]).
  destruct b as [c2b b2c].
  cbn [client_to_broker_buffer broker_to_client_buffer buffer_to].
  destruct (rcv Client) as [[|x d]| |]; try done;
  destruct (rcv Broker) as [[|y e]| |]; try done;
  destruct s; cbn [other write_ready wr_client wr_broker] in *; subst;
  destruct (snd Client) as [[|n]| |]; try done;
  destruct (snd Broker) as [[|m]| |]; try done;
  destruct c2b as [|c0 c2b], b2c as [|b0 b2c];
  destruct rc, rb; try destruct wc; try destruct wb;
  (eexists; split; [vm_compute; reflexivity|]);
  first [left; reflexivity | right; vm_compute; lia].
Qed.

Lemma relay_progress s evs b :
  Forall (λ ev, progress_to s ev = true) evs →
  ∃ b', (relay evs b).1 = Relaying b'
        ∧ (length evs ≤ length (delivered_to s (relay evs b).2)
           ∨ length (buffer_to s b) ≤ length (delivered_to s (relay evs b).2)).
Proof.
  intros Hall. revert b.
  induction Hall as [|ev evs Hev _ IH]; intros b; cbn [relay].
  - exists b. split; [done|]. left. simpl. lia.
  - destruct (pass_progress s ev b Hev) as (b1 & Hp & Hd).
    destruct (pass_streams s ev b) as (rest & Heq & Hrest).
    rewrite (Hrest b1 Hp) in Heq. apply (f_equal length) in Heq.
    rewrite !length_app in Heq.
    rewrite Hp. destruct (IH b1) as (b' & Hr & Hd').
    exists b'. cbn [fst snd]. split; [done|].
    rewrite delivered_to_app, length_app.
    destruct Hd as [Hd|Hd]; [rewrite Hd; simpl; right; lia|].
    destruct Hd' as [Hd'|Hd']; [left; simpl; lia | right; lia].
Qed.

Lemma prefix_of_app_length {A} (l1 l2 k1 k2 : list A) :
  l1 ++ l2 = k1 ++ k2 → length k1 ≤ length l1 → k1 `prefix_of` l1.
Proof.
  revert k1. induction l1 as [|x l1 IH]; intros [|y k1] Heq Hlen;
    simpl in *; try lia; [apply prefix_nil..|].
  injection Heq as -> Heq. apply prefix_cons, (IH _ Heq). lia.
Qed.

(** C1, as amended.  In a relay session, towards each side [s]: over one
    pass, the bytes accepted by [send] followed by the new buffer are the
    old buffer followed by the bytes [recv] returned on the other side;
    however the session stands, the bytes delivered are a prefix of the
    bytes read; while it is relaying, the bytes read are the bytes
    delivered followed by the buffer; and once the transport towards [s]
    accepts at least one byte per pass, for as many passes as the buffer
    has bytes, everything read so far has been delivered, in order. *)
Theorem relay_preserves_byte_streams (s : side) (evs more : list event)
    (b : buffers) :
  (relay evs no_buffers).1 = Relaying b →
  Forall (λ ev, progress_to s ev = true) more →
  length (buffer_to s b) ≤ length more →
  let log := (relay evs no_buffers).2 in
  let log' := (relay (evs ++ more) no_buffers).2 in
  (∀ ev b0 b1, (relay_pass ev b0).1 = Next b1 →
     delivered_to s (relay_pass ev b0).2 ++ buffer_to s b1
     = buffer_to s b0 ++ received_from (other s) (relay_pass ev b0).2)
  ∧ (∀ evs0, delivered_to s (relay evs0 no_buffers).2
             `prefix_of` received_from (other s) (relay evs0 no_buffers).2)
  ∧ received_from (other s) log = delivered_to s log ++ buffer_to s b
  ∧ ∃ b', (relay (evs ++ more) no_buffers).1 = Relaying b'
          ∧ received_from (other s) log `prefix_of` delivered_to s log'.
Proof.
  intros Hrun Hmore Hlen log log'.
  assert (received_from (other s) log = delivered_to s log ++ buffer_to s b)
    as Hlog.
  { destruct (relay_streams s evs no_buffers) as (rest & Heq & Hrest).
    rewrite (Hrest b Hrun) in Heq. unfold log. rewrite Heq. by destruct s. }
  split_and!.
  - intros ev b0 b1 Hp. destruct (pass_streams s ev b0) as (rest & Heq & Hrest).
    by rewrite (Hrest b1 Hp) in Heq.
  - intros evs0. destruct (relay_streams s evs0 no_buffers) as (rest & Heq & _).
    exists rest. rewrite Heq. by destruct s.
  - done.
  - destruct (relay_progress s more b Hmore) as (b' & Hr & Hd).
    exists b'. subst log'. rewrite (relay_app _ _ _ _ Hrun). cbn [fst snd].
    split; [done|]. fold log. rewrite Hlog, delivered_to_app.
    apply prefix_app.
    destruct (relay_streams s more b) as (rest & Heq & _).
    apply (prefix_of_app_length _ _ _ _ Heq). lia.
Qed.

(** C1, counterexample.  The client writes one byte and closes.  The byte
    is read into the buffer towards the broker; in the next pass [select]
    reports the client readable and the broker writable, [recv] returns no
    byte and the loop is left before the [send]: the session has read the
    byte and delivered nothing.  The [finally] block of the worker then
    empties the buffers, so that the byte is never delivered. *)
Example bytes_buffered_at_close_are_dropped :
  let run :=
    relay [client_sends [Byte.x61]; client_closes_broker_accepts 1]
      no_buffers in
  let t := create_msg_tunnel "/var/run" "/tmp/app_1.sock" 1 in
  let pass := attempt t (client_writes_and_closes [Byte.x61]) locals_init 0 in
  run.1 = Ended peer_closed
  ∧ received_from Client run.2 = [Byte.x61]
  ∧ delivered_to Broker run.2 = []
  ∧ pass.1 = Retry {| client_sock := Bound (Some 1); broker_sock := Bound 0;
                      bufs := no_buffers |}
  ∧ pass.2 = [ASocket 0 (Returns tt); ASocket 1 (Returns tt);
              AConnect 1 "/tmp/app_1.sock" (Returns tt);
              ASelect [1] None (Returns DataAvailable);
              AConnect 0 "/tmp/mqtt_msg_1.sock" (Returns tt);
              ARelay 1 0 run.2;
              AClose 1; AClose 0; ASleep 1].
Proof. by vm_compute. Qed.

Lemma relay_preserves_byte_streams_witness :
  let evs := [client_sends [Byte.x61; Byte.x62; Byte.x63]] in
  let more := [broker_accepts 1; broker_accepts 1; broker_accepts 1] in
  (relay evs no_buffers).1
  = Relaying {| client_to_broker_buffer := [Byte.x61; Byte.x62; Byte.x63];
                broker_to_client_buffer := [] |}
  ∧ ∃ b', (relay (evs ++ more) no_buffers).1 = Relaying b'
          ∧ received_from Client (relay evs no_buffers).2
            `prefix_of` delivered_to Broker (relay (evs ++ more) no_buffers).2.
Proof.
  intros evs more. split; [reflexivity|].
  refine (proj2 (proj2 (proj2
    (relay_preserves_byte_streams Broker evs more
       {| client_to_broker_buffer := [Byte.x61; Byte.x62; Byte.x63];
          broker_to_client_buffer := [] |} eq_refl _ _)))).
  - repeat constructor.
  - simpl. lia.
Defined.

End RelayFacts.

(** ** The worker *)

Module WorkerFacts.
Import Tunnel.

Lemma recv_step_cause (c : bool) s' a buf :
  let m := if c then recv_into s' a buf else ret buf in
  accounts_for m.2 (pass_end (match m.1 with
                              | Next _ => Next no_buffers
                              | Break => Break
                              | Throw e => Throw e
                              end)).
Proof.
  destruct c; [|by apply Forall_nil].
  destruct a as [[|d0 d]| |]; simpl.
  - by exists [], s', 4096.
  - by repeat constructor.
  - by repeat constructor.
  - by exists [], (CRecv s' 4096 Fails).
Qed.

Lemma send_step_cause (c : bool) s' a buf :
  let m := if c then send_from s' a buf else ret buf in
  m.1 ≠ Break
  ∧ accounts_for m.2 (pass_end (match m.1 with
                                | Next _ => Next no_buffers
                                | Break => Break
                                | Throw e => Throw e
                                end)).
Proof.
  destruct c; [|split; [done | by apply Forall_nil]].
  destruct a as [n| |]; simpl; (split; [done|]).
  - by repeat constructor.
  - by repeat constructor.
  - by exists [], (CSend s' buf Fails).
Qed.

Lemma accounts_for_app pre log o :
  Forall uneventful pre → accounts_for log o → accounts_for (pre ++ log) o.
Proof.
  intros Hpre. destruct o as [[|e]|b']; cbn [accounts_for].
  - intros (p & s & n & -> & Hp). exists (pre ++ p), s, n.
    rewrite app_assoc. split; [done | by apply Forall_app_2].
  - intros (p & k & -> & Hk & Hp). exists (pre ++ p), k.
    rewrite app_assoc. split; [done|]. split; [done | by apply Forall_app_2].
  - intros Hlog. by apply Forall_app_2.
Qed.

Ltac use_recv_cause H :=
  match goal with
  | |- context [if ?c then recv_into ?s' ?a ?buf else ret ?buf] =>
      pose proof (recv_step_cause c s' a buf) as H; cbv zeta in H;
      destruct (if c then recv_into s' a buf else ret buf) as [[?| |] ?];
      cbn [fst snd pass_end] in H |- *
  end.

Ltac use_send_cause H :=
  match goal with
  | |- context [if ?c then send_from ?s' ?a ?buf else ret ?buf] =>
      pose proof (send_step_cause c s' a buf) as H; cbv zeta in H;
      destruct H as [? H];
      destruct (if c then send_from s' a buf else ret buf) as [[?| |] ?];
      cbn [fst snd pass_end] in H |- *; [| done |]
  end.

Ltac all_uneventful :=
  repeat first
    [ assumption
    | apply Forall_nil_2
    | apply Forall_cons_2
    | apply Forall_app_2 ].

(** What the calls of one pass say about the way it ends. *)
Lemma pass_cause ev b :
  accounts_for (relay_pass ev b).2 (pass_end (relay_pass ev b).1).
Proof.
  unfold relay_pass.
  destruct (ev_select ev) as [r| |] eqn:Hsel.
  2,3: cbn [fst snd pass_end accounts_for]; eexists [], _;
       (split; [reflexivity|]); split; [reflexivity | apply Forall_nil_2].
  unfold bind; cbn [fst snd].
  assert (uneventful (CSelect [Client; Broker]
    ((if nonempty (client_to_broker_buffer b) then [Broker] else []) ++
     (if nonempty (broker_to_client_buffer b) then [Client] else []))
    (Returns r))) as Hs by (split; reflexivity).
  revert Hs. generalize (CSelect [Client; Broker]
    ((if nonempty (client_to_broker_buffer b) then [Broker] else []) ++
     (if nonempty (broker_to_client_buffer b) then [Client] else []))
    (Returns r)). intros k Hk.
  apply accounts_for_app; [all_uneventful|].
  use_recv_cause HA; [|done..].
  apply accounts_for_app; [done|].
  use_recv_cause HB; [|done..].
  apply accounts_for_app; [done|].
  use_send_cause HC; [|done].
  apply accounts_for_app; [done|].
  use_send_cause HD; [|done].
  apply accounts_for_app; [done|]. apply Forall_nil_2.
Qed.

(** The same for a whole session. *)
Lemma relay_cause evs b : accounts_for (relay evs b).2 (relay evs b).1.
Proof.
  revert b. induction evs as [|ev evs IH]; intros b; cbn [relay].
  - apply Forall_nil_2.
  - pose proof (pass_cause ev b) as Hp.
    destruct (relay_pass ev b) as [[b1| |] lp]; cbn [fst snd pass_end] in *;
      [|done..].
    apply accounts_for_app; [done | apply IH].
Qed.

Lemma io_failure_is_socket_error k e :
  io_failure k = Some e → is_socket_error e = true.
Proof.
  destruct k as [?? [| |] | ?? [| |] | ?? [| |]]; simpl;
    intros [= <-]; done.
Qed.


(** *** Reaching the relay loop *)

Lemma connect_to_client_ready t env fd rd :
  env_socket env Client = Returns tt →
  env_connect env Client = Returns tt →
  env_client_wait env = Returns rd →
  is_readable rd = true →
  connect_to_client_socket_and_wait_for_data t env fd
  = (Done (Some fd),
     [ASocket fd (Returns tt);
      AConnect fd (client_socket_path t) (Returns tt);
      ASelect [fd] None (Returns rd)]).
Proof.
  intros Hs Hc Hw Hr.
  unfold connect_to_client_socket_and_wait_for_data, select_read, act_bind, sys.
  rewrite Hs, Hc, Hw. cbn [fst snd].
  rewrite filter_cons, decide_True by done. rewrite filter_nil.
  cbn [act_ret fst snd app].
  rewrite bool_decide_eq_true_2 by apply list_elem_of_here. done.
Qed.

(** Without readable data on the client socket [select], which has no
    timeout, does not return, and the function does not either. *)
Lemma connect_to_client_blocks t env fd :
  env_socket env Client = Returns tt →
  env_connect env Client = Returns tt →
  env_client_wait env = Returns NotReady →
  connect_to_client_socket_and_wait_for_data t env fd
  = (Blocks,
     [ASocket fd (Returns tt);
      AConnect fd (client_socket_path t) (Returns tt);
      ASelect [fd] None (Returns NotReady)]).
Proof.
  intros Hs Hc Hw.
  unfold connect_to_client_socket_and_wait_for_data, select_read, act_bind, sys.
  by rewrite Hs, Hc, Hw.
Qed.

(** With the client ready, the [try] block goes straight from the
    [select] on the client socket to [connect] on the broker socket. *)
Lemma try_body_connects_broker t env l fd rd :
  env_socket env Broker = Returns tt →
  env_socket env Client = Returns tt →
  env_connect env Client = Returns tt →
  env_client_wait env = Returns rd →
  is_readable rd = true →
  try_body t env l fd
  = (((do* _ := sys (env_connect env Broker)
                  (AConnect fd (broker_path t) (env_connect env Broker)) in
       relay_on (Some (S fd)) fd (env_relay env) (bufs l)).1,
      [ASocket fd (Returns tt); ASocket (S fd) (Returns tt);
       AConnect (S fd) (client_socket_path t) (Returns tt);
       ASelect [S fd] None (Returns rd)]
      ++ (do* _ := sys (env_connect env Broker)
                     (AConnect fd (broker_path t) (env_connect env Broker)) in
          relay_on (Some (S fd)) fd (env_relay env) (bufs l)).2),
     {| client_sock := Bound (Some (S fd)); broker_sock := Bound fd;
        bufs := bufs l |}).
Proof.
  intros Hb Hs Hc Hw Hr. unfold try_body.
  rewrite (connect_to_client_ready t env (S fd) rd Hs Hc Hw Hr).
  rewrite Hb. done.
Qed.

Lemma attempt_log_extends t env l fd :
  ∃ rest, (attempt t env l fd).2 = (try_body t env l fd).1.2 ++ rest.
Proof.
  unfold attempt. destruct (try_body t env l fd) as [[[?|e|] lg] l'];
    cbn [fst snd].
  - by eexists.
  - destruct (is_socket_error e); by eexists.
  - exists []. by rewrite app_nil_r.
Qed.

Lemma sys_log {A} (a : answer A) what : (sys a what).2 = [what].
Proof. by destruct a. Qed.


(** *** The worker from its first pass on *)

(** On a later pass of the outer loop the two variables are bound, and a
    failure to connect to the client leads to the [finally] block and to
    the next pass. *)
Lemma later_connect_failure_retries t c b fd :
  (attempt t client_refuses
     {| client_sock := Bound (Some c); broker_sock := Bound b;
        bufs := no_buffers |} fd).1
  = Retry {| client_sock := Bound (Some c); broker_sock := Bound fd;
             bufs := no_buffers |}.
Proof. reflexivity. Qed.

(** C2.  On the first pass of the outer loop, when [connect] on the client
    socket fails: [except socket.error] catches the error, but [client_sock]
    was never assigned, so [client_sock.close()] in the [finally] block
    raises [UnboundLocalError]; nothing catches it, no socket is closed,
    there is no sleep, and the worker ends whatever would have come next. *)
Theorem first_connect_failure_ends_worker (t : UnixSocketTunneler)
    (rest : list attempt_env) :
  tunnel t (client_refuses :: rest)
  = (Dead UnboundLocalError,
     [ASocket 0 (Returns tt); ASocket 1 (Returns tt);
      AConnect 1 (client_socket_path t) Fails; APrintSocketError]).
Proof. reflexivity. Qed.


(** C6.  The path the worker connects its broker socket to is the fixed
    template applied to the slot number: it is the same for any two
    tunnelers with the same slot, whatever [BROKER_SOCKETS_PATH] and the
    client socket are; and once the client is ready the worker calls
    [connect] on that path at once, whatever this call then answers. *)
Theorem broker_path_from_slot_alone (dir dir' client client' : string)
    (n : Z) (env : attempt_env) (l : locals) (fd : sock) (rd : readiness) :
  env_socket env Broker = Returns tt →
  env_socket env Client = Returns tt →
  env_connect env Client = Returns tt →
  env_client_wait env = Returns rd →
  is_readable rd = true →
  let t := create_msg_tunnel dir client n in
  broker_path t = ("/tmp/mqtt_msg_" +:+ pretty n +:+ ".sock")%string
  ∧ broker_path (create_msg_tunnel dir' client' n) = broker_path t
  ∧ ∃ rest,
      (attempt t env l fd).2
      = [ASocket fd (Returns tt); ASocket (S fd) (Returns tt);
         AConnect (S fd) client (Returns tt);
         ASelect [S fd] None (Returns rd);
         AConnect fd ("/tmp/mqtt_msg_" +:+ pretty n +:+ ".sock")%string
           (env_connect env Broker)]
        ++ rest.
Proof.
  intros Hb Hs Hc Hw Hr t. split; [done|]. split; [done|].
  destruct (attempt_log_extends t env l fd) as [rest ->].
  rewrite (try_body_connects_broker t env l fd rd Hb Hs Hc Hw Hr).
  cbn [fst snd]. unfold act_bind.
  destruct (sys (env_connect env Broker) _) as [o lg] eqn:Hsys.
  pose proof (sys_log (env_connect env Broker)
                (AConnect fd (broker_path t) (env_connect env Broker))) as Hlg.
  rewrite Hsys in Hlg. cbn [fst snd] in *. subst lg.
  destruct o; cbn [fst snd]; eexists; rewrite <-!app_assoc; reflexivity.
Qed.

(** The worker waits without a timeout while the client socket is not
    readable, and does not connect to the broker. *)
Lemma silent_peer_keeps_worker_waiting t :
  tunnel t [silent_peer]
  = (InSession,
     [ASocket 0 (Returns tt); ASocket 1 (Returns tt);
      AConnect 1 (client_socket_path t) (Returns tt);
      ASelect [1] None (Returns NotReady)]).
Proof. reflexivity. Qed.

(** C7.  When the remote side closes the connection without sending a
    byte, the client socket becomes readable, [select] returns, and the
    worker connects to the broker and enters the relay loop; the first
    [recv] there returns no byte. *)
Theorem silent_close_reaches_broker (t : UnixSocketTunneler) :
  tunnel t [silent_close]
  = (Alive {| client_sock := Bound (Some 1); broker_sock := Bound 0;
              bufs := no_buffers |},
     [ASocket 0 (Returns tt); ASocket 1 (Returns tt);
      AConnect 1 (client_socket_path t) (Returns tt);
      ASelect [1] None (Returns EndOfStream);
      AConnect 0 (broker_path t) (Returns tt);
      ARelay 1 0
        [CSelect [Client; Broker] []
           (Returns {| rd_client := true; rd_broker := false;
                       wr_client := false; wr_broker := false |});
         CRecv Client 4096 (Returns [])];
      AClose 1; AClose 0; ASleep 1]).
Proof. reflexivity. Qed.


Lemma broker_path_from_slot_alone_witness :
  let t := create_msg_tunnel "/var/run" "/tmp/app_1.sock" 3 in
  broker_path t = "/tmp/mqtt_msg_3.sock"%string
  ∧ broker_path (create_msg_tunnel "/srv/brokers" "/tmp/app_2.sock" 3)
    = broker_path t.
Proof.
  intros t.
  destruct (broker_path_from_slot_alone "/var/run" "/srv/brokers"
              "/tmp/app_1.sock" "/tmp/app_2.sock" 3 silent_close
              locals_init 0 EndOfStream eq_refl eq_refl eq_refl eq_refl
              eq_refl) as (H1 & H2 & _).
  split; [exact H1 | exact H2].
Defined.

End WorkerFacts.

(** ** The MQTT client wrapper *)

Module ClientFacts.
Import Client.

Lemma getattr_setattr_eq st o name v :
  is_instance st o → getattr (setattr st o name v) o name = Some v.
Proof.
  intros [d Hd]. unfold getattr, setattr. cbn [instances class_dict].
  rewrite lookup_alter, decide_True by done. rewrite Hd. cbn.
  by rewrite lookup_insert_eq.
Qed.

Lemma getattr_setattr_ne st o o' name name' v :
  name ≠ name' → getattr (setattr st o name' v) o' name = getattr st o' name.
Proof.
  intros Hne. unfold getattr, setattr. cbn [instances class_dict].
  rewrite lookup_alter. case_decide as Ho; [subst o'|done].
  destruct (instances st !! o) as [d|]; cbn; [|done].
  by rewrite lookup_insert_ne.
Qed.

Lemma is_instance_setattr st o o' name v :
  is_instance (setattr st o name v) o' ↔ is_instance st o'.
Proof.
  unfold is_instance, setattr. cbn [instances].
  rewrite lookup_alter. case_decide; [subst|done].
  by rewrite fmap_is_Some.
Qed.


(** In a store with shared registries, every instance reads the list
    object of the class. *)
Lemma list_of_messages st o :
  registries_shared st → is_instance st o →
  ∃ r l, class_dict st !! message_callbacks_attr = Some (VList r)
         ∧ lists st !! r = Some l
         ∧ list_of st o message_callbacks_attr = Some (r, l).
Proof.
  intros Hsh [d Hd]. destruct (class_messages st Hsh) as (r & Hr & [l Hl]).
  exists r, l. split; [done|]. split; [done|].
  unfold list_of, getattr. rewrite Hd, (no_own_messages st Hsh o d Hd), Hr.
  by rewrite Hl.
Qed.


Lemma list_of_set_list st o name r l l' :
  list_of st o name = Some (r, l) →
  list_of (set_list st r l') o name = Some (r, l').
Proof.
  unfold list_of, getattr, set_list. cbn [instances class_dict lists].
  destruct (instances st !! o) as [d|]; [|done].
  destruct (match d !! name with Some v => Some v | None => class_dict st !! name end)
    as [[| | | | |r'|]|]; try done.
  destruct (lists st !! r') as [l0|]; [|done].
  intros [= -> ->]. by rewrite lookup_insert_eq.
Qed.

(** The class statement makes a store with shared registries, and the
    constructor keeps it so. *)
Lemma registries_shared_class : registries_shared class_statement.
Proof.
  split.
  - exists 0. split; [by vm_compute | by eexists].
  - exists 1. split; [by vm_compute | by eexists].
  - intros o d Ho. cbn [class_statement instances] in Ho.
    by rewrite lookup_empty in Ho.
  - intros o d Ho. cbn [class_statement instances] in Ho.
    by rewrite lookup_empty in Ho.
Qed.

Lemma registries_shared_new id ct cs dbg st :
  registries_shared st → registries_shared (new id ct cs dbg st).2.
Proof.
  intros Hsh. split; cbn [new snd class_dict instances lists].
  - destruct (class_messages st Hsh) as (r & Hr & Hl). exists r.
    split; [done|]. rewrite lookup_insert. case_decide; [by eexists | done].
  - destruct (class_connected st Hsh) as (r & Hr & Hl). exists r.
    split; [done|]. rewrite lookup_insert. case_decide; [by eexists | done].
  - intros o d. rewrite lookup_insert. case_decide.
    + intros [= <-]. by vm_compute.
    + apply (no_own_messages st Hsh).
  - intros o d. rewrite lookup_insert. case_decide.
    + intros [= <-]. by vm_compute.
    + apply (no_own_connected st Hsh).
Qed.

Lemma is_instance_new id ct cs dbg st :
  is_instance (new id ct cs dbg st).2 (new id ct cs dbg st).1.
Proof. unfold is_instance. cbn. by rewrite lookup_insert_eq. Qed.

Lemma is_instance_new_old id ct cs dbg st o :
  is_instance st o → is_instance (new id ct cs dbg st).2 o.
Proof.
  unfold is_instance. cbn. intros Ho. rewrite lookup_insert.
  case_decide; [by eexists | done].
Qed.

Section HandlerFacts.

Variable dict : Type.
Variable json_loads : list Byte.byte → option dict.
Variable raises : callback → bool.
Variable library : library_call → handle → attrs → attrs * bool.



(** C10.  [stop] on an instance whose [mqtt_client] is not [None] returns
    with [connected] and [is_starting] set to [False], whatever the calls
    into the MQTT library do and whether or not they raise; on an instance
    whose [mqtt_client] is [None] it changes nothing. *)
Theorem stop_resets_flags (st : store) (self : obj) (v : value) :
  getattr st self "mqtt_client" = Some v →
  ∃ st',
    stop library self st = Some st'
    ∧ (v ≠ VNone →
       getattr st' self "connected" = Some (VBool false)
       ∧ getattr st' self "is_starting" = Some (VBool false))
    ∧ (v = VNone → st' = st).
Proof.
  intros Hv. unfold stop. rewrite Hv.
  assert (is_instance st self) as Hself.
  { unfold is_instance. unfold getattr in Hv.
    destruct (instances st !! self); [by eexists | done]. }
  set (st1 := {| class_dict := class_dict st;
                 instances := alter (stop_try library (class_dict st)) self
                                (instances st);
                 lists := lists st |}).
  assert (is_instance st1 self) as Hself1.
  { unfold is_instance, st1. cbn [instances].
    rewrite lookup_alter, decide_True by done. by rewrite fmap_is_Some. }
  assert (getattr (setattr (setattr st1 self "connected" (VBool false))
                     self "is_starting" (VBool false)) self "connected"
          = Some (VBool false)
          ∧ getattr (setattr (setattr st1 self "connected" (VBool false))
                       self "is_starting" (VBool false)) self "is_starting"
            = Some (VBool false)) as Hflags.
  { split.
    - rewrite getattr_setattr_ne by done. by apply getattr_setattr_eq.
    - apply getattr_setattr_eq. by apply is_instance_setattr. }
  destruct v; eexists; (split; [reflexivity|]); split; done.
Qed.

End HandlerFacts.


Lemma stop_resets_flags_witness :
  let n1 := new "first" SERIAL_PORT "/dev/ttyS0" false class_statement in
  let st := setattr (setattr n1.2 n1.1 "mqtt_client" (VClient 0))
              n1.1 "connected" (VBool true) in
  let failing (_ : library_call) (_ : handle) (d : attrs) := (d, true) in
  getattr st n1.1 "mqtt_client" = Some (VClient 0)
  ∧ getattr st n1.1 "connected" = Some (VBool true)
  ∧ ∃ st', stop failing n1.1 st = Some st'
           ∧ getattr st' n1.1 "connected" = Some (VBool false)
           ∧ getattr st' n1.1 "is_starting" = Some (VBool false).
Proof.
  intros n1 st failing.
  assert (getattr st n1.1 "mqtt_client" = Some (VClient 0)) as Hc
    by (vm_compute; reflexivity).
  split; [exact Hc|]. split; [vm_compute; reflexivity|].
  destruct (stop_resets_flags failing st n1.1 (VClient 0) Hc)
    as (st' & Hstop & Hflags & _).
  exists st'. split; [exact Hstop|]. by apply Hflags.
Defined.

End ClientFacts.

(** ** [hexdump] *)

Module HexdumpFacts.
Import PyFormat Hexdump.

Lemma str_app_cons x (a b : string) : String x a +:+ b = String x (a +:+ b).
Proof. reflexivity. Qed.

Lemma str_app_nil (b : string) : EmptyString +:+ b = b.
Proof. reflexivity. Qed.

Lemma str_app_assoc (a b c : string) : (a +:+ b) +:+ c = a +:+ (b +:+ c).
Proof.
  induction a as [|x a IH]; [done|]. rewrite !str_app_cons. by f_equal.
Qed.

Lemma str_length_app (a b : string) :
  String.length (a +:+ b) = String.length a + String.length b.
Proof.
  induction a as [|x a IH]; [done|]. rewrite str_app_cons. simpl. by f_equal.
Qed.

Lemma length_fill c n : String.length (fill c n) = n.
Proof. induction n as [|n IH]; simpl; [done | by rewrite IH]. Qed.

Lemma skip_length_app (p s : string) : skip (String.length p) (p +:+ s) = s.
Proof.
  induction p as [|x p IH]; [by destruct s|]. by rewrite str_app_cons.
Qed.

Lemma first_length_app (p s : string) : first (String.length p) (p +:+ s) = p.
Proof.
  induction p as [|x p IH]; [by destruct s|].
  rewrite str_app_cons. simpl. by f_equal.
Qed.

Lemma hex_digit_not_colon n : Ascii.eqb (hex_digit n) ":" = false.
Proof. do 16 (destruct n as [|n]; [done|]). done. Qed.

Lemma after_colon_fill k s : after_colon (fill "0" k +:+ s) = after_colon s.
Proof.
  induction k as [|k IH]; [done|]. cbn [fill]. by rewrite str_app_cons.
Qed.

Lemma after_colon_hex_digits fuel n s :
  after_colon (hex_digits fuel n +:+ s) = after_colon s.
Proof.
  revert n s. induction fuel as [|fuel IH]; intros n s; simpl; [done|].
  destruct (n <? 16).
  - rewrite str_app_cons, str_app_nil. simpl. by rewrite hex_digit_not_colon.
  - rewrite str_app_assoc, IH, str_app_cons, str_app_nil. simpl.
    by rewrite hex_digit_not_colon.
Qed.

Lemma after_colon_offset i rest :
  after_colon (format_x 4 i +:+ ": " +:+ rest) = rest.
Proof.
  unfold format_x, zfill, hex.
  rewrite str_app_assoc, after_colon_fill, after_colon_hex_digits.
  rewrite !str_app_cons, str_app_nil. simpl. by destruct rest.
Qed.

(** A byte is written as two hexadecimal digits, which read back as it. *)
Lemma format_byte (b : Byte.byte) :
  ∃ c1 c2, format_x 2 (Byte.to_nat b) = String c1 (String c2 EmptyString)
           ∧ is_space c1 = false
           ∧ byte_of_hex c1 c2 = Some b.
Proof.
  destruct b; (eexists _, _; split; [vm_compute; reflexivity|]);
    split; reflexivity.
Qed.

Lemma unhex_fill k : unhex (fill " " k) = Some [].
Proof. destruct k as [|[|k]]; done. Qed.

Lemma unhex_hex_bytes chunk k :
  unhex (hex_bytes chunk +:+ fill " " k) = Some chunk.
Proof.
  unfold hex_bytes. induction chunk as [|x chunk IH].
  - apply unhex_fill.
  - destruct (format_byte x) as (c1 & c2 & Hx & Hsp & Hback).
    destruct chunk as [|y chunk].
    + cbn [fmap list_fmap join]. rewrite Hx, !str_app_cons, str_app_nil.
      cbn [unhex]. rewrite Hsp, Hback. destruct k as [|k]; [done|].
      cbn [fill]. change (is_space " ") with true. cbv iota.
      by rewrite unhex_fill.
    + change (join " " ((λ b, format_x 2 (Byte.to_nat b)) <$> x :: y :: chunk))
        with (format_x 2 (Byte.to_nat x) +:+ " " +:+
              join " " ((λ b, format_x 2 (Byte.to_nat b)) <$> y :: chunk)).
      rewrite Hx. rewrite !str_app_assoc, !str_app_cons, !str_app_nil.
      cbn [unhex]. rewrite Hsp, Hback. change (is_space " ") with true.
      cbv iota. by rewrite IH.
Qed.

Lemma length_hex_bytes chunk :
  String.length (hex_bytes chunk) = 3 * length chunk - 1.
Proof.
  unfold hex_bytes. induction chunk as [|x chunk IH]; [done|].
  destruct (format_byte x) as (c1 & c2 & Hx & _).
  destruct chunk as [|y chunk].
  - cbn [fmap list_fmap join]. by rewrite Hx.
  - change (join " " ((λ b, format_x 2 (Byte.to_nat b)) <$> x :: y :: chunk))
      with (format_x 2 (Byte.to_nat x) +:+ " " +:+
            join " " ((λ b, format_x 2 (Byte.to_nat b)) <$> y :: chunk)).
    rewrite Hx, !str_length_app, IH. simpl. lia.
Qed.

(** The hex column of a printed line reads back as the chunk. *)
Lemma unhex_dump_line prefix data i :
  unhex (hex_column prefix (dump_line prefix data i))
  = Some (take 16 (drop i data)).
Proof.
  unfold hex_column, dump_line. set (chunk := take 16 (drop i data)).
  assert (length chunk ≤ 16) as Hlen by (subst chunk; rewrite length_take; lia).
  replace (String.length prefix + 1) with (String.length (prefix +:+ " "))
    by (rewrite str_length_app; done).
  rewrite <-(str_app_assoc prefix " "), skip_length_app.
  rewrite after_colon_offset.
  assert (String.length (ljust 48 (hex_bytes chunk)) = 48) as H48.
  { unfold ljust. rewrite str_length_app, length_fill, length_hex_bytes. lia. }
  rewrite <-H48 at 1. rewrite first_length_app.
  apply unhex_hex_bytes.
Qed.

Lemma undump_cons prefix line lines :
  undump prefix (line :: lines ++ ["EOF"%string])
  = match unhex (hex_column prefix line),
          undump prefix (lines ++ ["EOF"%string]) with
    | Some xs, Some ys => Some (xs ++ ys)
    | _, _ => None
    end.
Proof. by destruct lines. Qed.

Lemma undump_lines prefix data a m :
  undump prefix
    ((dump_line prefix data <$> ((λ k, k * 16) <$> seq a m)) ++ ["EOF"%string])
  = Some (take (16 * m) (drop (a * 16) data)).
Proof.
  revert a. induction m as [|m IH]; intros a.
  - done.
  - cbn [seq]. rewrite !fmap_cons, <-app_comm_cons, undump_cons.
    rewrite unhex_dump_line, IH. f_equal.
    replace (drop (S a * 16) data) with (drop 16 (drop (a * 16) data))
      by (rewrite drop_drop; f_equal; lia).
    rewrite take_take_drop. f_equal. lia.
Qed.

(** [hexdump] prints one line per started group of 16 bytes and then
    [EOF], and the bytes can be read back from the hex columns. *)
Theorem hexdump_reads_back (data : bytes) (prefix : string) :
  length (hexdump data prefix) = (length data + 15) / 16 + 1
  ∧ last (hexdump data prefix) = Some "EOF"%string
  ∧ undump prefix (hexdump data prefix) = Some data.
Proof.
  unfold hexdump, range_step. split_and!.
  - rewrite length_app, !length_fmap, length_seq. cbn [length].
    by replace (length data + 16 - 1) with (length data + 15) by lia.
  - apply last_snoc.
  - replace (length data + 16 - 1) with (length data + 15) by lia.
    rewrite undump_lines. f_equal. rewrite drop_0. apply take_ge.
    pose proof (Nat.div_mod_eq (length data + 15) 16) as Hd.
    pose proof (Nat.mod_upper_bound (length data + 15) 16). lia.
Qed.

End HexdumpFacts.

(** ** More on discovery *)

Module DiscoveryMore.
Import PyFormat Discovery DiscoveryFacts.

Lemma split_join sep s :
  join (String sep EmptyString) (PyStr.split sep s) = s.
Proof.
  induction s as [|c r IH]; [done|]. cbn [PyStr.split].
  destruct (Ascii.eqb_spec c sep) as [->|Hne].
  - pose proof (split_not_nil sep r) as Hnn.
    destruct (PyStr.split sep r) as [|w ws]; [done|].
    change (join (String sep EmptyString) (EmptyString :: w :: ws))
      with (String sep (join (String sep EmptyString) (w :: ws))).
    by rewrite IH.
  - pose proof (split_not_nil sep r) as Hnn.
    destruct (PyStr.split sep r) as [|w ws]; [done|].
    destruct ws as [|w' ws]; cbn [join] in *; by rewrite <-IH.
Qed.

Lemma split_pieces sep s :
  Forall (λ f, PyStr.split sep f = [f]) (PyStr.split sep s).
Proof.
  induction s as [|c r IH]; cbn [PyStr.split]; [by repeat constructor|].
  destruct (Ascii.eqb_spec c sep) as [->|Hne].
  - by constructor.
  - pose proof (split_not_nil sep r) as Hnn.
    destruct (PyStr.split sep r) as [|w ws]; [done|].
    apply Forall_cons in IH as [Hw Hws]. constructor; [|done].
    cbn [PyStr.split]. destruct (Ascii.eqb_spec c sep); [done|].
    by rewrite Hw.
Qed.

(** The names of a listing hold no newline, and joined by newlines they
    are the output of [find] without its surrounding white space. *)
Theorem listing_joins_back (stdout : string) :
  join (String PyStr.newline EmptyString) (listing stdout) = PyStr.strip stdout
  ∧ Forall (λ f, PyStr.split PyStr.newline f = [f]) (listing stdout).
Proof. split; [apply split_join | apply split_pieces]. Qed.

Section WatchMore.

Variable set_iter : gset string → list string.
Hypothesis set_iter_visits : ∀ X, set_iter X ≡ₚ elements X.

(** Over any run of the watcher, the threads started are for pairwise
    different names: exactly the non-empty names that some listing showed
    and the discovery set did not hold at the start; the set ends as what
    it was plus every name listed. *)
Theorem watcher_starts_each_new_name_once (outs : list string) (w : watcher) :
  let r := watch_msg_sockets set_iter outs w in
  NoDup (th_file <$> r.1)
  ∧ (∀ f, f ∈ th_file <$> r.1
          ↔ (f ≠ EmptyString ∧ (f ∉ sockets w)
             ∧ ∃ out, out ∈ outs ∧ f ∈ listing out))
  ∧ (∀ f, f ∈ sockets r.2
          ↔ (f ∈ sockets w ∨ ∃ out, out ∈ outs ∧ f ∈ listing out)).
Proof.
  revert w. induction outs as [|o outs IH]; intros w;
    cbn [watch_msg_sockets fst snd].
  - split_and!; [constructor| |].
    + intros f. split; [by intros ?%elem_of_nil|].
      intros (_ & _ & out & Hout & _). by apply elem_of_nil in Hout.
    + intros f. split; [by left|]. intros [?|(out & Hout & _)]; [done|].
      by apply elem_of_nil in Hout.
  - destruct (IH (poll set_iter o w).2) as (IHnd & IHin & IHset).
    split_and!.
    + rewrite fmap_app. apply NoDup_app. split_and!; [|intros f Hf|done].
      * by apply poll_files_NoDup.
      * apply watch_known_not_started; [done|].
        apply (elem_of_poll_files set_iter set_iter_visits) in Hf
          as (_ & Hin & _).
        rewrite poll_sockets, elem_of_union, elem_of_list_to_set. by right.
    + intros f. rewrite fmap_app, elem_of_app, IHin.
      rewrite (elem_of_poll_files set_iter set_iter_visits).
      rewrite poll_sockets, elem_of_union, elem_of_list_to_set.
      split.
      * intros [(Hne & Hin & Hnew)|(Hne & Hnew & out & Hout & Hin)].
        -- split_and!; [done..|]. exists o. split; [apply list_elem_of_here|done].
        -- split_and!; [done|tauto|]. exists out.
           split; [by apply list_elem_of_further|done].
      * intros (Hne & Hnew & out & Hout & Hin).
        apply elem_of_cons in Hout as [->|Hout]; [by left|].
        destruct (decide (f ∈ listing o)); [by left|]. right.
        split_and!; [done|tauto|]. by exists out.
    + intros f. rewrite IHset, poll_sockets, elem_of_union, elem_of_list_to_set.
      split.
      * intros [[?|Hin]|(out & Hout & Hin)]; [by left| |].
        -- right. exists o. split; [apply list_elem_of_here|done].
        -- right. exists out. split; [by apply list_elem_of_further|done].
      * intros [?|(out & Hout & Hin)]; [by left; left|].
        apply elem_of_cons in Hout as [->|Hout]; [by left; right|].
        right. by exists out.
Qed.

End WatchMore.

Lemma watcher_starts_each_new_name_once_witness :
  let outs := ["/tmp/app_1.sock"%string; EmptyString; "/tmp/app_1.sock"%string] in
  NoDup (th_file <$> (watch_msg_sockets elements outs watcher_init).1).
Proof.
  intros outs.
  exact (proj1 (watcher_starts_each_new_name_once elements
                  (λ X, reflexivity _) outs watcher_init)).
Defined.

Lemma str_app_inj_l (p a b : string) : p +:+ a = p +:+ b → a = b.
Proof.
  induction p as [|c p IH]; [done|].
  rewrite !HexdumpFacts.str_app_cons. intros [= H]. by apply IH.
Qed.

Lemma str_app_inj_r (a b s : string) : a +:+ s = b +:+ s → a = b.
Proof.
  intros H.
  assert (String.length a = String.length b) as Hlen.
  { apply (f_equal String.length) in H.
    rewrite !HexdumpFacts.str_length_app in H. lia. }
  revert b H Hlen. induction a as [|c a IH]; intros [|d b] H Hlen;
    simpl in Hlen; try done.
  rewrite !HexdumpFacts.str_app_cons in H. injection H as -> H.
  f_equal. apply IH; [done | lia].
Qed.

Lemma broker_path_inj t1 t2 :
  Tunnel.broker_path t1 = Tunnel.broker_path t2 →
  Tunnel.n_socket t1 = Tunnel.n_socket t2.
Proof.
  unfold Tunnel.broker_path. intros H.
  apply str_app_inj_l, str_app_inj_r in H. by apply pretty_Z_inj in H.
Qed.

(** The watcher hands out the slots 1, 2, 3, ... in the order in which it
    starts the threads, so that no two tunnels it creates connect to the
    same broker socket path. *)
Theorem watcher_slots_and_broker_paths (set_iter : gset string → list string)
    (outs : list string) (dir : string) :
  let ths := (watch_msg_sockets set_iter outs watcher_init).1 in
  th_slot <$> ths = seqZ 1 (Z.of_nat (length ths))
  ∧ n_socket (watch_msg_sockets set_iter outs watcher_init).2
    = (1 + Z.of_nat (length ths))%Z
  ∧ NoDup ((λ t, Tunnel.broker_path
                   (Tunnel.create_msg_tunnel dir (th_file t) (th_slot t)))
           <$> ths).
Proof.
  intros ths.
  destruct (watch_slots set_iter outs watcher_init) as [Hslots Hn].
  fold ths in Hslots, Hn. split; [done|]. split; [done|].
  assert (NoDup (th_slot <$> ths)) as Hnd by (rewrite Hslots; apply NoDup_seqZ).
  clear Hslots Hn. induction ths as [|t ths IH]; [constructor|].
  rewrite fmap_cons in *. apply NoDup_cons in Hnd as [Hnotin Hnd].
  apply NoDup_cons. split; [|by apply IH].
  intros Hin. apply list_elem_of_fmap in Hin as (t' & Heq & Hin').
  apply broker_path_inj in Heq. simpl in Heq.
  apply Hnotin. rewrite Heq. by apply list_elem_of_fmap_2.
Qed.

End DiscoveryMore.

(** ** More on the tunnel worker *)

Module WorkerMore.
Import Tunnel TunnelMore RelayFacts WorkerFacts.

Lemma relay_on_outcome c b evs bf :
  (relay_on (Some c) b evs bf).1 = Done tt
  ∨ (relay_on (Some c) b evs bf).1 = Blocks
  ∨ ∃ e, (relay_on (Some c) b evs bf).1 = Raised e ∧ is_socket_error e = true.
Proof.
  unfold relay_on. pose proof (relay_cause evs bf) as Hc.
  destruct (relay evs bf) as [[[|e]|b'] lg]; cbn [fst snd] in *; auto.
  right. right. exists e. split; [done|].
  destruct Hc as (pre & k & _ & Hk & _). by eapply io_failure_is_socket_error.
Qed.

(** How the [try] block ends, and what it leaves in the local variables. *)
Lemma try_body_outcome t env l fd :
  let b := try_body t env l fd in
  (assigns_client_sock env = false
   ∧ (∃ e, b.1.1 = Raised e ∧ is_socket_error e = true)
   ∧ client_sock b.2 = client_sock l
   ∧ (broker_sock b.2 = broker_sock l ∨ broker_sock b.2 = Bound fd)
   ∧ bufs b.2 = bufs l)
  ∨ (assigns_client_sock env = true
     ∧ (b.1.1 = Blocks
        ∨ ((b.1.1 = Done tt
            ∨ ∃ e, b.1.1 = Raised e ∧ is_socket_error e = true)
           ∧ b.2 = {| client_sock := Bound (Some (S fd));
                      broker_sock := Bound fd; bufs := bufs l |}))).
Proof.
  unfold try_body, assigns_client_sock,
    connect_to_client_socket_and_wait_for_data, select_read, act_bind, sys.
  destruct (env_socket env Broker) as [[]| |]; cbn [fst snd returns andb];
    [|left; split_and!; eauto..].
  destruct (env_socket env Client) as [[]| |]; cbn [fst snd returns andb];
    [|left; split_and!; eauto..].
  destruct (env_connect env Client) as [[]| |]; cbn [fst snd returns andb];
    [|left; split_and!; eauto..].
  destruct (env_client_wait env) as [rd| |]; cbn [fst snd returns andb];
    [|left; split_and!; eauto..].
  right. split; [done|].
  destruct rd; cbn [is_readable].
  { left. by rewrite filter_cons, decide_False. }
  all: rewrite filter_cons, decide_True by done; rewrite filter_nil;
    cbn [act_ret fst snd];
    rewrite bool_decide_eq_true_2 by apply list_elem_of_here;
    cbn [act_ret fst snd];
    (destruct (env_connect env Broker) as [[]| |]; cbn [fst snd];
     [| right; split; [right; eexists; split; reflexivity | reflexivity]..]);
    destruct (relay_on_outcome (S fd) fd (env_relay env) (bufs l))
      as [H|[H|(e & H & He)]]; rewrite H;
    [ right; split; [by left | reflexivity]
    | by left
    | right; split; [right; by exists e | reflexivity] ].
Qed.

(** The [try] block closes no socket and does not sleep. *)
Lemma try_body_no_teardown t env l fd :
  Forall (λ a, tears_down a = false) (try_body t env l fd).1.2.
Proof.
  unfold try_body, connect_to_client_socket_and_wait_for_data, select_read,
    act_bind, sys.
  destruct (env_socket env Broker) as [[]| |]; cbn [fst snd];
    [|by repeat constructor..].
  destruct (env_socket env Client) as [[]| |]; cbn [fst snd app];
    [|by repeat constructor..].
  destruct (env_connect env Client) as [[]| |]; cbn [fst snd app];
    [|by repeat constructor..].
  destruct (env_client_wait env) as [rd| |]; cbn [fst snd app];
    [|by repeat constructor..].
  destruct rd; cbn [is_readable].
  { rewrite filter_cons, decide_False by done. rewrite filter_nil.
    cbn [fst snd app]. by repeat constructor. }
  all: rewrite filter_cons, decide_True by done; rewrite filter_nil;
    cbn [act_ret fst snd];
    rewrite bool_decide_eq_true_2 by apply list_elem_of_here;
    cbn [act_ret fst snd app];
    destruct (env_connect env Broker) as [[]| |];
    cbn [fst snd app relay_on]; by repeat constructor.
Qed.

(** The [try] block leaves each variable as it was or bound to the
    socket this pass created. *)
Lemma try_body_locals t env l fd :
  (client_sock (try_body t env l fd).2 = client_sock l
   ∨ client_sock (try_body t env l fd).2 = Bound (Some (S fd)))
  ∧ (broker_sock (try_body t env l fd).2 = broker_sock l
     ∨ broker_sock (try_body t env l fd).2 = Bound fd).
Proof.
  unfold try_body, connect_to_client_socket_and_wait_for_data, select_read,
    act_bind, sys.
  destruct (env_socket env Broker) as [[]| |]; cbn [fst snd];
    [|by auto..].
  destruct (env_socket env Client) as [[]| |]; cbn [fst snd];
    [|by auto..].
  destruct (env_connect env Client) as [[]| |]; cbn [fst snd];
    [|by auto..].
  destruct (env_client_wait env) as [rd| |]; cbn [fst snd];
    [|by auto..].
  destruct rd; cbn [is_readable].
  { rewrite filter_cons, decide_False by done. rewrite filter_nil.
    cbn [fst snd]. by auto. }
  all: rewrite filter_cons, decide_True by done; rewrite filter_nil;
    cbn [act_ret fst snd];
    rewrite bool_decide_eq_true_2 by apply list_elem_of_here;
    cbn [act_ret fst snd client_sock broker_sock]; by auto.
Qed.

Lemma finally_block_done l l' :
  (finally_block l).1 = Done l' →
  ∃ c b, client_sock l = Bound (Some c) ∧ broker_sock l = Bound b
         ∧ (finally_block l).2 = [AClose c; AClose b; ASleep 1]
         ∧ l' = {| client_sock := Bound (Some c); broker_sock := Bound b;
                   bufs := no_buffers |}.
Proof.
  unfold finally_block.
  destruct (client_sock l) as [|[c|]] eqn:Hc; [done| |done].
  destruct (broker_sock l) as [|b] eqn:Hb; [done|].
  intros [= <-]. by exists c, b.
Qed.

Lemma finally_block_closes l s :
  AClose s ∈ (finally_block l).2 →
  client_sock l = Bound (Some s) ∨ broker_sock l = Bound s.
Proof.
  unfold finally_block.
  destruct (client_sock l) as [|[c|]]; cbn [snd];
    [by intros ?%elem_of_nil| |by intros ?%elem_of_nil].
  destruct (broker_sock l) as [|b]; cbn [snd]; intros Hin;
    repeat (apply elem_of_cons in Hin as [Hin|Hin];
            [first [injection Hin as ->; by auto | discriminate]|]);
    by apply elem_of_nil in Hin.
Qed.

(** A pass of the outer loop is its [try] block, which closes nothing,
    followed by the [finally] block, unless it stays inside the [try]
    block. *)
Lemma attempt_log t env l fd :
  ∃ pre,
    Forall (λ a, tears_down a = false) pre
    ∧ (((attempt t env l fd).1 = Inside ∧ (attempt t env l fd).2 = pre)
       ∨ ((attempt t env l fd).2
          = pre ++ (finally_block (try_body t env l fd).2).2
          ∧ ∀ l', (attempt t env l fd).1 = Retry l' →
                  (finally_block (try_body t env l fd).2).1 = Done l')).
Proof.
  unfold attempt. pose proof (try_body_no_teardown t env l fd) as Hlg.
  destruct (try_body t env l fd) as [[o lg] l1]. cbn [fst snd] in *.
  destruct o as [[]|e|].
  - exists lg. split; [done|]. right. split; [done|].
    intros l'. by destruct (finally_block l1) as [[l2|e|] lf]; intros [= ->].
  - destruct (is_socket_error e).
    + exists (lg ++ [APrintSocketError]). split.
      { apply Forall_app_2; [done | by repeat constructor]. }
      right. cbn [fst snd]. split; [by rewrite <-app_assoc|].
      intros l'.
      by destruct (finally_block l1) as [[l2|e'|] lf]; intros [= ->].
    + exists lg. split; [done|]. right. cbn [fst snd]. split; [done|].
      intros l'. by destruct (finally_block l1) as [[l2|e'|] lf].
  - exists lg. split; [done|]. by left.
Qed.

(** Whatever fails in the first pass before [client_sock] is assigned (the
    creation of a socket, the connection to the client socket, the
    [select] on it), the worker ends with [UnboundLocalError]: the
    [finally] block stops at [client_sock.close()], so that the worker
    closes no socket, the broker socket created included, does not pause,
    and never asks for the later answers of the operating system. *)
Theorem first_pass_failure_ends_worker (t : UnixSocketTunneler)
    (env : attempt_env) (rest : list attempt_env) :
  assigns_client_sock env = false →
  (tunnel t (env :: rest)).1 = Dead UnboundLocalError
  ∧ Forall (λ a, tears_down a = false) (tunnel t (env :: rest)).2
  ∧ tunnel t (env :: rest) = tunnel t [env].
Proof.
  intros Ha. unfold tunnel. cbn [tunnel_from]. unfold attempt.
  pose proof (try_body_no_teardown t env locals_init 0) as Hlg.
  destruct (try_body_outcome t env locals_init 0)
    as [(_ & (e' & He & Hse) & Hc & _)|(Ha' & _)]; [|congruence].
  rewrite He, Hse. unfold finally_block. rewrite Hc.
  cbn [fst snd client_sock locals_init].
  split_and!; [done| |done].
  apply Forall_app_2; [done | by repeat constructor].
Qed.

Lemma first_pass_failure_ends_worker_witness :
  let t := create_msg_tunnel "/var/run" "/tmp/app_1.sock" 3 in
  assigns_client_sock client_refuses = false
  ∧ (tunnel t [client_refuses; silent_close]).1 = Dead UnboundLocalError.
Proof.
  intros t. split; [reflexivity|].
  exact (proj1 (first_pass_failure_ends_worker t client_refuses
                  [silent_close] eq_refl)).
Defined.

(** A pass of the outer loop that completes closes nothing before its
    [finally] block, and ends by closing the socket [client_sock] is bound
    to, closing the one [broker_sock] is bound to and sleeping one second;
    it leaves the buffers empty.  When the [try] block got as far as
    assigning [client_sock], these are the two sockets this pass created;
    when it did not, [client_sock] is still bound to the socket of an
    earlier pass, and it is that one which is closed. *)
Theorem completed_attempt_backs_off (t : UnixSocketTunneler)
    (env : attempt_env) (l l' : locals) (fd : sock) :
  (attempt t env l fd).1 = Retry l' →
  ∃ pre c b,
    (attempt t env l fd).2 = pre ++ [AClose c; AClose b; ASleep 1]
    ∧ Forall (λ a, tears_down a = false) pre
    ∧ client_sock l' = Bound (Some c)
    ∧ broker_sock l' = Bound b
    ∧ bufs l' = no_buffers
    ∧ (assigns_client_sock env = true → c = S fd ∧ b = fd)
    ∧ (assigns_client_sock env = false → client_sock l = Bound (Some c)).
Proof.
  intros Hr.
  destruct (attempt_log t env l fd) as (pre & Hpre & [[Hin _]|[Hlog Hdone]]);
    [congruence|].
  destruct (finally_block_done _ _ (Hdone _ Hr))
    as (c & b & Hc & Hb & Hf & ->).
  exists pre, c, b. rewrite Hlog, Hf. split_and!; try done.
  - intros Ha.
    destruct (try_body_outcome t env l fd)
      as [(Ha' & _)|(_ & [Hbl|[_ Hl2]])]; [congruence| |].
    + unfold attempt in Hr. by rewrite Hbl in Hr.
    + rewrite Hl2 in Hc, Hb. cbn [client_sock broker_sock] in Hc, Hb.
      by injection Hc as <-; injection Hb as <-.
  - intros Ha.
    destruct (try_body_outcome t env l fd)
      as [(_ & _ & Hc' & _)|(Ha' & _)]; [|congruence].
    by rewrite <-Hc'.
Qed.

Lemma completed_attempt_backs_off_witness :
  let t := create_msg_tunnel "/var/run" "/tmp/app_1.sock" 3 in
  let env := client_writes_then_closes [Byte.x61] in
  (attempt t env locals_init 0).1
  = Retry {| client_sock := Bound (Some 1); broker_sock := Bound 0;
             bufs := no_buffers |}
  ∧ ∃ pre,
      (attempt t env locals_init 0).2 = pre ++ [AClose 1; AClose 0; ASleep 1]
      ∧ Forall (λ a, tears_down a = false) pre.
Proof.
  intros t env. split; [reflexivity|].
  destruct (completed_attempt_backs_off t env locals_init _ 0 eq_refl)
    as (pre & c & b & Hlog & Hpre & _ & _ & _ & Hnew & _).
  destruct (Hnew eq_refl) as [-> ->]. by exists pre.
Defined.

(** A pass closes only sockets its variables were bound to when it began
    and the two sockets it creates. *)
Lemma attempt_closes_bound t env l fd x :
  client_sock l ≠ Bound (Some x) → broker_sock l ≠ Bound x →
  x ≠ fd → x ≠ S fd →
  (AClose x ∉ (attempt t env l fd).2)
  ∧ ∀ l', (attempt t env l fd).1 = Retry l' →
          client_sock l' ≠ Bound (Some x) ∧ broker_sock l' ≠ Bound x.
Proof.
  intros Hc Hb Hfd HSfd.
  assert (client_sock (try_body t env l fd).2 ≠ Bound (Some x)
          ∧ broker_sock (try_body t env l fd).2 ≠ Bound x) as [Hc1 Hb1].
  { destruct (try_body_locals t env l fd) as [[->| ->] [->| ->]];
      split; congruence. }
  destruct (attempt_log t env l fd) as (pre & Hpre & [[Hin Hlog]|[Hlog Hdone]]).
  - rewrite Hlog, Hin. split; [|done].
    intros Hx. rewrite Forall_forall in Hpre. by specialize (Hpre _ Hx).
  - split.
    + rewrite Hlog, elem_of_app. intros [Hx|Hx].
      * rewrite Forall_forall in Hpre. by specialize (Hpre _ Hx).
      * by apply finally_block_closes in Hx as [?|?].
    + intros l' Hr.
      destruct (finally_block_done _ _ (Hdone _ Hr))
        as (c & b & Hc' & Hb' & _ & ->).
      cbn [client_sock broker_sock]. split; congruence.
Qed.

Lemma tunnel_from_never_closes t envs l fd x :
  client_sock l ≠ Bound (Some x) → broker_sock l ≠ Bound x → x < fd →
  AClose x ∉ (tunnel_from t envs l fd).2.
Proof.
  revert l fd. induction envs as [|env envs IH]; intros l fd Hc Hb Hlt;
    cbn [tunnel_from]; [apply not_elem_of_nil|].
  destruct (attempt_closes_bound t env l fd x Hc Hb) as [Hlog Hnext];
    [lia..|].
  destruct (attempt t env l fd) as [[l'| |] lg]; cbn [fst snd] in *;
    [|done..].
  rewrite elem_of_app. intros [?|Hx]; [done|].
  destruct (Hnext l' eq_refl) as [Hc' Hb'].
  revert Hx. apply IH; [done..|lia].
Qed.

(** When, in a pass after the first, the connection to the client socket
    fails, the worker never calls [close] on the client socket created in
    that pass, in that pass or in any later one, while it closes once more
    the socket [client_sock] was bound to by an earlier pass. *)
Theorem failed_client_connect_socket_never_closed (t : UnixSocketTunneler)
    (env : attempt_env) (rest : list attempt_env) (l : locals)
    (fd c0 : sock) :
  client_sock l = Bound (Some c0) → c0 < fd →
  env_socket env Broker = Returns tt →
  env_socket env Client = Returns tt →
  returns (env_connect env Client) = false →
  let run := tunnel_from t (env :: rest) l fd in
  ASocket (S fd) (Returns tt) ∈ run.2
  ∧ AClose c0 ∈ run.2
  ∧ AClose (S fd) ∉ run.2.
Proof.
  intros Hc Hlt Hsb Hsc Hcc run. subst run. cbn [tunnel_from].
  assert (∃ a, attempt t env l fd
            = (Retry {| client_sock := Bound (Some c0);
                        broker_sock := Bound fd; bufs := no_buffers |},
               [ASocket fd (Returns tt); ASocket (S fd) (Returns tt);
                AConnect (S fd) (client_socket_path t) a;
                APrintSocketError; AClose c0; AClose fd; ASleep 1]))
    as [a Ha].
  { unfold attempt, try_body, connect_to_client_socket_and_wait_for_data,
      act_bind, sys.
    rewrite Hsb, Hsc. cbn [fst snd].
    destruct (env_connect env Client) as [[]| |] eqn:E; [done|..];
      cbn [fst snd is_socket_error]; unfold finally_block;
      cbn [client_sock broker_sock]; rewrite Hc; cbn [fst snd app];
      eexists; reflexivity. }
  rewrite Ha. cbn [fst snd]. rewrite !elem_of_app. split_and!.
  - left. apply list_elem_of_further, list_elem_of_here.
  - left. do 4 apply list_elem_of_further. apply list_elem_of_here.
  - intros [Hx|Hx].
    + repeat (apply elem_of_cons in Hx as [Hx|Hx];
              [first [discriminate | injection Hx; lia]|]).
      by apply elem_of_nil in Hx.
    + revert Hx. apply tunnel_from_never_closes;
        cbn [client_sock broker_sock]; [| |lia];
        intros [= ?]; lia.
Qed.

Lemma failed_client_connect_socket_never_closed_witness :
  let t := create_msg_tunnel "/var/run" "/tmp/app_1.sock" 3 in
  let l := {| client_sock := Bound (Some 1); broker_sock := Bound 0;
              bufs := no_buffers |} in
  let run := tunnel_from t [client_refuses; client_writes_then_closes []] l 2 in
  1 < 2
  ∧ returns (env_connect client_refuses Client) = false
  ∧ ASocket 3 (Returns tt) ∈ run.2
  ∧ AClose 1 ∈ run.2
  ∧ AClose 3 ∉ run.2.
Proof.
  intros t l run. split; [lia|]. split; [reflexivity|].
  exact (failed_client_connect_socket_never_closed t client_refuses
           [client_writes_then_closes []] l 2 1
           eq_refl (le_n 2) eq_refl eq_refl eq_refl).
Defined.

Lemma recv_step_calls (c : bool) s a buf :
  let m := if c then recv_into s a buf else ret buf in
  Forall well_formed_call m.2.
Proof.
  destruct c; [|constructor].
  destruct a as [data| |]; cbn [recv_into]; [destruct (nonempty data)|..];
    by repeat constructor.
Qed.

Lemma send_step_calls (w : bool) s a buf :
  let m := if w && nonempty buf then send_from s a buf else ret buf in
  Forall well_formed_call m.2.
Proof.
  destruct w, buf as [|x buf]; cbn [andb nonempty]; try constructor.
  destruct a; by repeat constructor.
Qed.

Lemma pass_calls ev b : Forall well_formed_call (relay_pass ev b).2.
Proof.
  unfold relay_pass.
  assert (NoDup ((if nonempty (client_to_broker_buffer b) then [Broker] else [])
                 ++ (if nonempty (broker_to_client_buffer b) then [Client] else [])))
    as Hw.
  { destruct (nonempty _), (nonempty _); cbn [app]; repeat constructor;
      set_solver. }
  assert (∀ a, well_formed_call (CSelect [Client; Broker]
            ((if nonempty (client_to_broker_buffer b) then [Broker] else [])
             ++ (if nonempty (broker_to_client_buffer b) then [Client] else []))
            a)) as Hsel by (by split).
  destruct (ev_select ev) as [r| |];
    [|by apply Forall_singleton..].
  unfold bind; cbn [fst snd].
  apply Forall_app_2; [by apply Forall_singleton|].
  match goal with
  | |- context [if ?c then recv_into ?s ?a ?buf else ret ?buf] =>
      generalize (recv_step_calls c s a buf); cbv zeta;
      destruct (if c then recv_into s a buf else ret buf) as [[c2b| |] lA]
  end; cbn [fst snd]; intros HA; [|done..].
  apply Forall_app_2; [done|].
  match goal with
  | |- context [if ?c then recv_into ?s ?a ?buf else ret ?buf] =>
      generalize (recv_step_calls c s a buf); cbv zeta;
      destruct (if c then recv_into s a buf else ret buf) as [[b2c| |] lB]
  end; cbn [fst snd]; intros HB; [|done..].
  apply Forall_app_2; [done|].
  match goal with
  | |- context [if ?w && nonempty ?buf then send_from ?s ?a ?buf else ret ?buf] =>
      generalize (send_step_calls w s a buf); cbv zeta;
      destruct (if w && nonempty buf then send_from s a buf else ret buf)
        as [[c2b'| |] lC]
  end; cbn [fst snd]; intros HC; [|done..].
  apply Forall_app_2; [done|].
  match goal with
  | |- context [if ?w && nonempty ?buf then send_from ?s ?a ?buf else ret ?buf] =>
      generalize (send_step_calls w s a buf); cbv zeta;
      destruct (if w && nonempty buf then send_from s a buf else ret buf)
        as [[b2c'| |] lD]
  end; cbn [fst snd]; intros HD; [|done..].
  apply Forall_app_2; [done | constructor].
Qed.

(** In a relay session every [select] watches both sockets for reading,
    every [recv] asks for at most 4096 bytes, and [send] is never called
    with an empty buffer. *)
Theorem relay_calls_well_formed (evs : list event) (b : buffers) :
  Forall well_formed_call (relay evs b).2.
Proof.
  revert b. induction evs as [|ev evs IH]; intros b; cbn [relay];
    [constructor|].
  pose proof (pass_calls ev b) as Hp.
  destruct (relay_pass ev b) as [[b1| |] lp]; cbn [fst snd] in *; [|done..].
  by apply Forall_app_2.
Qed.

End WorkerMore.

(** ** More of [MqttClient] *)

Module ClientMore.
Import Client ClientOps ClientFacts.

Lemma list_of_lists st o name r l :
  list_of st o name = Some (r, l) → lists st !! r = Some l.
Proof.
  unfold list_of. destruct (getattr st o name) as [[| | | | |r'|]|]; try done.
  destruct (lists st !! r') as [l0|] eqn:Hl; [|done]. by intros [= <- <-].
Qed.

Lemma remove_first_middle x pre tl :
  x ∉ pre → remove_first x (pre ++ x :: tl) = Some (pre ++ tl).
Proof.
  induction pre as [|y pre IH]; intros Hx; cbn [app remove_first].
  - by rewrite decide_True.
  - apply not_elem_of_cons in Hx as [Hne Hx].
    rewrite decide_False by done. by rewrite IH.
Qed.

Lemma remove_first_elem x l :
  x ∈ l → ∃ l', remove_first x l = Some l' ∧ S (length l') = length l
                ∧ l ≡ₚ x :: l'.
Proof.
  induction l as [|y l IH]; intros Hx; [by apply elem_of_nil in Hx|].
  cbn [remove_first]. destruct (decide (y = x)) as [->|Hne].
  - by exists l.
  - apply elem_of_cons in Hx as [->|Hx]; [done|].
    destruct (IH Hx) as (l' & -> & Hlen & Hp). exists (y :: l').
    split; [done|]. split; [simpl; lia|]. rewrite Hp. apply Permutation_swap.
Qed.

Lemma remove_first_absent x l : x ∉ l → remove_first x l = None.
Proof.
  induction l as [|y l IH]; intros Hx; [done|].
  apply not_elem_of_cons in Hx as [Hne Hx]. cbn [remove_first].
  rewrite decide_False by done. by rewrite IH.
Qed.

Section SubscriptionFacts.

Variable lib_raises : mqtt_call → bool.
Variable self : obj.
Variable h : handle.
Variable r : ref.

(** The library accepts every [unsubscribe]. *)
Hypothesis unsubscribe_returns : ∀ t, lib_raises (Unsubscribe h t) = false.

(** One pass of the loop of [unsubscribe_all] on an item of the list. *)
Lemma unsubscribe_step st l topic l' :
  list_of st self subscriptions_attr = Some (r, l) →
  getattr st self "mqtt_client" = Some (VClient h) →
  remove_first topic l = Some l' →
  unsubscribe lib_raises self topic st
  = {| after := set_list st r l'; calls := [Unsubscribe h topic];
       raised := None |}.
Proof.
  intros Hl Hc Hrm. unfold unsubscribe, on_client. rewrite Hl, Hrm.
  change (getattr (set_list st r l') self "mqtt_client")
    with (getattr st self "mqtt_client").
  by rewrite Hc, unsubscribe_returns.
Qed.

Lemma half_step d : 1 ≤ d → (d + 1) / 2 = S ((d - 2 + 1) / 2).
Proof.
  intros Hd. destruct (decide (d = 1)) as [->|Hne]; [done|].
  replace (d + 1) with (d - 2 + 1 + 1 * 2) by lia.
  rewrite Nat.div_add by done. lia.
Qed.

Lemma unsubscribe_loop_count fuel st l i :
  list_of st self subscriptions_attr = Some (r, l) →
  getattr st self "mqtt_client" = Some (VClient h) →
  length l - i < fuel →
  ∃ e l', unsubscribe_loop lib_raises fuel r i self st = Some e
          ∧ raised e = None
          ∧ list_of (after e) self subscriptions_attr = Some (r, l')
          ∧ getattr (after e) self "mqtt_client" = Some (VClient h)
          ∧ length l' + (length l - i + 1) / 2 = length l
          ∧ length (calls e) = (length l - i + 1) / 2.
Proof.
  revert st l i. induction fuel as [|fuel IH]; intros st l i Hl Hc Hfuel;
    [lia|].
  cbn [unsubscribe_loop]. rewrite (list_of_lists _ _ _ _ _ Hl).
  destruct (l !! i) as [topic|] eqn:Hi'.
  - apply lookup_lt_Some in Hi' as Hlt.
    destruct (remove_first_elem topic l) as (l1 & Hrm & Hlen & _);
      [by eapply list_elem_of_lookup_2|].
    rewrite (unsubscribe_step st l topic l1 Hl Hc Hrm). cbn [raised after calls].
    destruct (IH (set_list st r l1) l1 (S i))
      as (e & l' & -> & He & Hl' & Hc' & Hn & Hk);
      [by eapply list_of_set_list | done | lia |].
    eexists _, l'. split; [reflexivity|]. cbn [raised after calls].
    pose proof (half_step (length l - i) ltac:(lia)) as Hhalf.
    replace (length l - i - 2) with (length l1 - S i) in Hhalf by lia.
    split_and!; [done..| |].
    + rewrite Hhalf. lia.
    + cbn [length app]. rewrite Hk, Hhalf. done.
  - apply lookup_ge_None in Hi'. eexists _, l. split; [reflexivity|].
    cbn [raised after calls length].
    replace (length l - i + 1) with 1 by lia.
    split_and!; [done..| simpl; lia | done].
Qed.

Lemma unsubscribe_loop_distinct fuel st pre suf :
  list_of st self subscriptions_attr = Some (r, pre ++ suf) →
  getattr st self "mqtt_client" = Some (VClient h) →
  NoDup (pre ++ suf) →
  length suf < fuel →
  ∃ e, unsubscribe_loop lib_raises fuel r (length pre) self st = Some e
       ∧ list_of (after e) self subscriptions_attr = Some (r, pre ++ odds suf)
       ∧ calls e = Unsubscribe h <$> evens suf.
Proof.
  revert st pre suf. induction fuel as [|fuel IH];
    intros st pre suf Hl Hc Hnd Hfuel; [lia|].
  cbn [unsubscribe_loop]. rewrite (list_of_lists _ _ _ _ _ Hl).
  destruct suf as [|a tl].
  - rewrite app_nil_r in *. rewrite lookup_ge_None_2 by done.
    eexists. split; [reflexivity|]. by rewrite app_nil_r.
  - rewrite list_lookup_middle by done.
    assert (a ∉ pre) as Ha.
    { apply NoDup_app in Hnd as (_ & Hd & _). intros Hin.
      apply (Hd a Hin). apply list_elem_of_here. }
    rewrite (unsubscribe_step st _ a (pre ++ tl) Hl Hc
               (remove_first_middle a pre tl Ha)).
    cbn [raised after calls].
    assert (NoDup (pre ++ tl)) as Hnd'.
    { apply NoDup_app in Hnd as (H1 & H2 & H3). apply NoDup_cons in H3 as [_ H3].
      apply NoDup_app. split_and!; [done| |done].
      intros x Hx Hx'. apply (H2 x Hx). by apply list_elem_of_further. }
    destruct tl as [|b rest].
    + destruct fuel as [|fuel]; [simpl in Hfuel; lia|].
      cbn [unsubscribe_loop lists set_list]. rewrite lookup_insert_eq.
      rewrite app_nil_r. rewrite lookup_ge_None_2 by lia.
      eexists. split; [reflexivity|]. cbn [after calls odds evens app].
      rewrite app_nil_r. split; [|done].
      apply list_of_set_list with (l := pre ++ [a]). done.
    + destruct (IH (set_list st r (pre ++ b :: rest)) (pre ++ [b]) rest)
        as (e & He & Hl' & Hk).
      * rewrite <-app_assoc. by eapply list_of_set_list.
      * done.
      * by rewrite <-app_assoc.
      * simpl in Hfuel. lia.
      * rewrite length_app in He. cbn [length] in He.
        replace (length pre + 1) with (S (length pre)) in He by lia.
        rewrite He. eexists. split; [reflexivity|].
        cbn [after calls odds evens]. rewrite <-app_assoc in Hl'.
        split; [done|]. by rewrite Hk.
Qed.

(** [unsubscribe_all] removes every other topic only: the list shrinks
    while the loop walks it, so of [n] topics it unsubscribes from
    [(n + 1) / 2] and leaves [n / 2] subscribed; when the topics are
    pairwise different, those left are the ones at the odd positions. *)
Theorem unsubscribe_all_skips_every_other (st : store) (l : list value) :
  list_of st self subscriptions_attr = Some (r, l) →
  getattr st self "mqtt_client" = Some (VClient h) →
  ∃ e l',
    unsubscribe_all lib_raises self st = Some e
    ∧ raised e = None
    ∧ list_of (after e) self subscriptions_attr = Some (r, l')
    ∧ length l' = length l / 2
    ∧ length (calls e) = (length l + 1) / 2
    ∧ (NoDup l → l' = odds l ∧ calls e = Unsubscribe h <$> evens l).
Proof.
  intros Hl Hc. unfold unsubscribe_all. rewrite Hl.
  destruct (unsubscribe_loop_count (S (length l)) st l 0 Hl Hc)
    as (e & l' & He & Hr & Hl' & _ & Hn & Hk); [lia..|].
  exists e, l'. rewrite Nat.sub_0_r in *. split_and!; [done..| | done |].
  - pose proof (Nat.div_mod_eq (length l) 2).
    pose proof (Nat.div_mod_eq (length l + 1) 2).
    pose proof (Nat.mod_upper_bound (length l) 2).
    pose proof (Nat.mod_upper_bound (length l + 1) 2). lia.
  - intros Hnd.
    destruct (unsubscribe_loop_distinct (S (length l)) st [] l Hl Hc Hnd)
      as (e' & He' & Hl'' & Hk'); [lia|].
    cbn [length] in He'. rewrite He in He'. injection He' as <-.
    rewrite Hl' in Hl''. injection Hl'' as ->. done.
Qed.

End SubscriptionFacts.

Lemma set_list_back st r l l1 :
  lists st !! r = Some l → set_list (set_list st r l1) r l = st.
Proof.
  intros Hl. destruct st as [cd ins ls]. unfold set_list.
  cbn [class_dict instances lists] in *. f_equal.
  rewrite insert_insert_eq. by apply insert_id.
Qed.

Section MethodFacts.

Variable lib_raises : mqtt_call → bool.

(** [subscribe] records the topic and [unsubscribe] takes it out again:
    together they leave the topics as they were up to their order, and
    leave the store unchanged when the topic was not subscribed before. *)
Theorem subscribe_then_unsubscribe (st : store) (self : obj) (h : handle)
    (r : ref) (l : list value) (t : value) :
  list_of st self subscriptions_attr = Some (r, l) →
  getattr st self "mqtt_client" = Some (VClient h) →
  lib_raises (Subscribe h t) = false →
  lib_raises (Unsubscribe h t) = false →
  let s1 := subscribe lib_raises self t st in
  let s2 := unsubscribe lib_raises self t (after s1) in
  raised s1 = None
  ∧ calls s1 = [Subscribe h t]
  ∧ list_of (after s1) self subscriptions_attr = Some (r, l ++ [t])
  ∧ raised s2 = None
  ∧ calls s2 = [Unsubscribe h t]
  ∧ (∃ l2, list_of (after s2) self subscriptions_attr = Some (r, l2)
           ∧ l2 ≡ₚ l)
  ∧ (t ∉ l → after s2 = st).
Proof.
  intros Hl Hc Hs Hu s1 s2.
  assert (s1 = {| after := set_list st r (l ++ [t]); calls := [Subscribe h t];
                  raised := None |}) as Hs1.
  { unfold s1, subscribe, on_client. rewrite Hl.
    change (getattr (set_list st r (l ++ [t])) self "mqtt_client")
      with (getattr st self "mqtt_client"). by rewrite Hc, Hs. }
  assert (list_of (set_list st r (l ++ [t])) self subscriptions_attr
          = Some (r, l ++ [t])) as Hl1 by (by eapply list_of_set_list).
  destruct (remove_first_elem t (l ++ [t])) as (l2 & Hrm & _ & Hp);
    [apply elem_of_app; right; apply list_elem_of_here|].
  assert (s2 = {| after := set_list (set_list st r (l ++ [t])) r l2;
                  calls := [Unsubscribe h t]; raised := None |}) as Hs2.
  { unfold s2. rewrite Hs1. cbn [after]. unfold unsubscribe, on_client.
    rewrite Hl1, Hrm.
    change (getattr (set_list (set_list st r (l ++ [t])) r l2) self "mqtt_client")
      with (getattr st self "mqtt_client"). by rewrite Hc, Hu. }
  clearbody s1 s2. subst s1 s2. cbn [after calls raised].
  split_and!; try done.
  - exists l2. split; [by eapply list_of_set_list|].
    apply (Permutation_cons_inv (a := t)). rewrite <-Hp.
    by rewrite Permutation_app_comm.
  - intros Hnot. rewrite (remove_first_middle t l [] Hnot) in Hrm.
    injection Hrm as <-. rewrite app_nil_r.
    apply set_list_back. by eapply list_of_lists.
Qed.

(** [unsubscribe] from a topic that is not subscribed raises [ValueError]
    before any call to the library, and changes nothing. *)
Theorem unsubscribe_unknown_topic_raises (st : store) (self : obj) (r : ref)
    (l : list value) (t : value) :
  list_of st self subscriptions_attr = Some (r, l) →
  t ∉ l →
  unsubscribe lib_raises self t st
  = {| after := st; calls := []; raised := Some ValueError |}.
Proof.
  intros Hl Ht. unfold unsubscribe. by rewrite Hl, remove_first_absent.
Qed.

(** [subscribe] on a client that was not started ([mqtt_client] is [None])
    raises, makes no call to the library, and has recorded the topic all
    the same. *)
Theorem subscribe_before_start_records_topic (st : store) (self : obj)
    (r : ref) (l : list value) (t : value) :
  list_of st self subscriptions_attr = Some (r, l) →
  getattr st self "mqtt_client" = Some VNone →
  let s1 := subscribe lib_raises self t st in
  raised s1 = Some AttributeError
  ∧ calls s1 = []
  ∧ list_of (after s1) self subscriptions_attr = Some (r, l ++ [t]).
Proof.
  intros Hl Hc s1.
  assert (s1 = {| after := set_list st r (l ++ [t]); calls := [];
                  raised := Some AttributeError |}) as ->.
  { unfold s1, subscribe, on_client. rewrite Hl.
    change (getattr (set_list st r (l ++ [t])) self "mqtt_client")
      with (getattr st self "mqtt_client"). by rewrite Hc. }
  split_and!; [done..|]. by eapply list_of_set_list.
Qed.

(** The list of subscriptions of a new instance is a new, empty list
    object: no list that existed before, of another instance or of the
    class, changes when the new instance subscribes. *)
Theorem new_subscriptions_private (identifier : string)
    (connection_type : ConnectionType) (connection_string : string)
    (debugging : bool) (st : store) (t : value) :
  let n := new identifier connection_type connection_string debugging st in
  let s1 := subscribe lib_raises n.1 t n.2 in
  ∃ r, list_of n.2 n.1 subscriptions_attr = Some (r, [])
       ∧ lists st !! r = None
       ∧ list_of (after s1) n.1 subscriptions_attr = Some (r, [t])
       ∧ ∀ r' l, lists st !! r' = Some l → lists (after s1) !! r' = Some l.
Proof.
  intros n s1. exists (fresh (dom (lists st))).
  assert (lists st !! fresh (dom (lists st)) = None) as Hfresh
    by apply not_elem_of_dom, is_fresh.
  assert (list_of n.2 n.1 subscriptions_attr
          = Some (fresh (dom (lists st)), [])) as Hl.
  { unfold list_of, getattr, n, new. cbn [fst snd instances class_dict lists].
    rewrite lookup_insert_eq.
    generalize (fresh (dom (lists st))). intros r.
    replace (list_to_map
               [("mqtt_client"%string, VNone);
                ("identifier"%string, VStr identifier);
                ("connection_type"%string, VConn connection_type);
                ("connection_string"%string, VStr connection_string);
                (debugging_attr, VBool debugging);
                (subscriptions_attr, VList r)] !! subscriptions_attr)
      with (Some (VList r)) by (by vm_compute).
    by rewrite lookup_insert_eq. }
  split; [done|]. split; [done|].
  assert (after s1 = set_list n.2 (fresh (dom (lists st))) ([] ++ [t])) as ->.
  { unfold s1, subscribe, on_client. rewrite Hl.
    by destruct (getattr _ _ _) as [[]|]. }
  split; [by eapply list_of_set_list|].
  intros r' l Hr'. unfold set_list, n, new. cbn [snd lists].
  rewrite !lookup_insert_ne by congruence. done.
Qed.

End MethodFacts.

(** A callback registered through one instance is removed through any
    other, the registry being one list: removing a callback that is not
    registered raises, and removing it after it was added gives back the
    store as it was. *)
Theorem del_message_callback_undoes_add (st : store) (a b : obj)
    (f : callback) (r : ref) (l : list value) :
  registries_shared st →
  is_instance st a →
  is_instance st b →
  list_of st a message_callbacks_attr = Some (r, l) →
  VFun f ∉ l →
  del_message_callback b f st = None
  ∧ ∃ st1, add_message_callback a f st = Some st1
           ∧ del_message_callback b f st1 = Some st.
Proof.
  intros Hsh Ha Hb Hl Hf.
  assert (list_of st b message_callbacks_attr = Some (r, l)) as Hlb.
  { destruct (list_of_messages st a Hsh Ha) as (ra & la & Hra & Hla & Ha').
    destruct (list_of_messages st b Hsh Hb) as (rb & lb & Hrb & Hlb & ->).
    rewrite Ha' in Hl. congruence. }
  split.
  - unfold del_message_callback. by rewrite Hlb, remove_first_absent.
  - exists (set_list st r (l ++ [VFun f])). split.
    + unfold add_message_callback, append_to. by rewrite Hl.
    + unfold del_message_callback.
      rewrite (list_of_set_list st b _ r l _ Hlb).
      rewrite (remove_first_middle (VFun f) l [] Hf), app_nil_r.
      f_equal. apply set_list_back. by eapply list_of_lists.
Qed.

Section LifecycleFacts.

Variable dict : Type.
Variable raises : callback → bool.
Variable lib_raises : mqtt_call → bool.


(** When [connect] raises in [start] on a Unix socket or TCP client, the
    error is swallowed, the loop is not started, and [is_starting] stays
    [True]: every later [start] does nothing.  [stop] resets the flags,
    and [start] then creates a client again. *)
Theorem failed_connect_blocks_start_until_stop (st : store) (self : obj)
    (h : handle) (c : ConnectionType)
    (library : library_call → handle → attrs → attrs * bool) :
  is_instance st self →
  truthy (getattr st self "is_starting") = false →
  truthy (getattr st self "connected") = false →
  getattr st self "connection_type" = Some (VConn c) →
  c ≠ SERIAL_PORT →
  (∀ host port keepalive, lib_raises (Connect h host port keepalive) = true) →
  let e := start lib_raises h self st in
  raised e = None
  ∧ (LoopStart h ∉ calls e)
  ∧ getattr (after e) self "is_starting" = Some (VBool true)
  ∧ getattr (after e) self "mqtt_client" = Some (VClient h)
  ∧ (∀ lib' h', start lib' h' self (after e)
                = {| after := after e; calls := []; raised := None |})
  ∧ ∃ st2, stop library self (after e) = Some st2
           ∧ ∀ lib' h', calls (start lib' h' self st2) ≠ [].
Proof.
  intros Hself Hs Hc Hct Hser Hraise e.
  set (st2 := setattr (setattr st self "is_starting" (VBool true)) self
                "mqtt_client" (VClient h)).
  assert (is_instance (setattr st self "is_starting" (VBool true)) self)
    as Hself1 by (by apply is_instance_setattr).
  assert (getattr st2 self "is_starting" = Some (VBool true)) as Hst.
  { unfold st2. rewrite getattr_setattr_ne by done.
    by apply getattr_setattr_eq. }
  assert (getattr st2 self "mqtt_client" = Some (VClient h)) as Hmc
    by (by apply getattr_setattr_eq).
  assert (after e = st2 ∧ raised e = None ∧ (LoopStart h ∉ calls e))
    as (Hafter & Hr & Hloop).
  { unfold e, start. rewrite Hs, Hc, Hct. cbn [orb].
    destruct c; [|done|]; rewrite Hraise; cbn [after raised calls];
      (split; [done|]); (split; [done|]); intros Hin;
      repeat (apply elem_of_cons in Hin as [Hin|Hin]; [discriminate|]);
      by apply elem_of_nil in Hin. }
  rewrite Hafter. split_and!; [done..| |].
  - intros lib' h'. unfold start. rewrite Hst. done.
  - destruct (stop_resets_flags library st2 self (VClient h) Hmc)
      as (st3 & Hstop & Hflags & _).
    destruct (Hflags ltac:(done)) as [Hcon Hsta].
    exists st3. split; [done|]. intros lib' h'. unfold start.
    rewrite Hcon, Hsta. cbn [truthy orb].
    destruct (getattr st3 self "connection_type") as [[| | |[]| | |]|];
      cbn [calls]; repeat (destruct (lib' _)); done.
Qed.

(** [__on_connection_lost] always starts again: whatever the state was,
    it creates a new library client, which replaces the previous one, and
    leaves the instance starting and not connected. *)
Theorem connection_lost_starts_again (st : store) (self : obj) (h : handle) :
  is_instance st self →
  let e := on_connection_lost lib_raises h self st in
  (∃ serial client_id transport rest,
     calls e = NewClient h serial client_id transport :: rest)
  ∧ getattr (after e) self "mqtt_client" = Some (VClient h)
  ∧ getattr (after e) self "is_starting" = Some (VBool true)
  ∧ getattr (after e) self "connected" = Some (VBool false).
Proof.
  intros Hself e.
  set (st1 := setattr (setattr st self "is_starting" (VBool false)) self
                "connected" (VBool false)).
  assert (is_instance st1 self) as Hself1
    by (by apply is_instance_setattr, is_instance_setattr).
  assert (getattr st1 self "connected" = Some (VBool false)) as Hc
    by (apply getattr_setattr_eq; by apply is_instance_setattr).
  assert (getattr st1 self "is_starting" = Some (VBool false)) as Hs.
  { unfold st1. rewrite getattr_setattr_ne by done.
    by apply getattr_setattr_eq. }
  set (st2 := setattr (setattr st1 self "is_starting" (VBool true)) self
                "mqtt_client" (VClient h)).
  assert (after e = st2 ∧ ∃ serial client_id transport rest,
            calls e = NewClient h serial client_id transport :: rest)
    as (Hafter & Hcalls).
  { unfold e, on_connection_lost. fold st1. unfold start.
    rewrite Hc, Hs. cbn [truthy orb]. fold st2.
    destruct (getattr st1 self "connection_type") as [[| | |[]| | |]|];
      cbn [calls after]; repeat (destruct (lib_raises _));
      cbn [calls after app]; (split; [done|]); by eexists _, _, _, _. }
  rewrite Hafter. split_and!; [done| | |].
  - by apply getattr_setattr_eq, is_instance_setattr.
  - unfold st2. rewrite getattr_setattr_ne by done.
    by apply getattr_setattr_eq.
  - unfold st2. by rewrite !getattr_setattr_ne by done.
Qed.

End LifecycleFacts.

Section MessageFacts.

Variable dict : Type.
Variable json_loads : list Byte.byte → option dict.
Variable raises : callback → bool.



End MessageFacts.

Lemma unsubscribe_all_skips_every_other_witness :
  let n := new "first" UNIX_SOCKET "/tmp/broker.sock" false class_statement in
  let st := set_list (setattr n.2 n.1 "mqtt_client" (VClient 5)) 2
              [VStr "a"; VStr "b"; VStr "c"] in
  list_of st n.1 subscriptions_attr = Some (2, [VStr "a"; VStr "b"; VStr "c"])
  ∧ ∃ e, unsubscribe_all (λ _, false) n.1 st = Some e
         ∧ list_of (after e) n.1 subscriptions_attr = Some (2, [VStr "b"])
         ∧ calls e = [Unsubscribe 5 (VStr "a"); Unsubscribe 5 (VStr "c")].
Proof.
  intros n st.
  assert (list_of st n.1 subscriptions_attr
          = Some (2, [VStr "a"; VStr "b"; VStr "c"])) as Hl
    by (vm_compute; reflexivity).
  split; [exact Hl|].
  destruct (unsubscribe_all_skips_every_other (λ _, false) n.1 5 2
              (λ _, eq_refl) st _ Hl) as (e & l' & He & _ & Hl' & _ & _ & Hd).
  { vm_compute; reflexivity. }
  exists e. split; [exact He|].
  destruct Hd as [-> ->].
  { repeat constructor; intros Hin;
      repeat (apply elem_of_cons in Hin as [Hin|Hin]; [discriminate|]);
      by apply elem_of_nil in Hin. }
  split; [exact Hl' | reflexivity].
Defined.

Lemma subscribe_then_unsubscribe_witness :
  let n := new "first" UNIX_SOCKET "/tmp/broker.sock" false class_statement in
  let st := setattr n.2 n.1 "mqtt_client" (VClient 5) in
  let s1 := subscribe (λ _, false) n.1 (VStr "state") st in
  list_of st n.1 subscriptions_attr = Some (2, [])
  ∧ after (unsubscribe (λ _, false) n.1 (VStr "state") (after s1)) = st.
Proof.
  intros n st s1.
  assert (list_of st n.1 subscriptions_attr = Some (2, [])) as Hl
    by (vm_compute; reflexivity).
  split; [exact Hl|].
  destruct (subscribe_then_unsubscribe (λ _, false) st n.1 5 2 [] (VStr "state")
              Hl) as (_ & _ & _ & _ & _ & _ & H);
    [vm_compute; reflexivity | reflexivity | reflexivity |].
  apply H, not_elem_of_nil.
Defined.

Lemma unsubscribe_unknown_topic_raises_witness :
  let n := new "first" UNIX_SOCKET "/tmp/broker.sock" false class_statement in
  list_of n.2 n.1 subscriptions_attr = Some (2, [])
  ∧ raised (unsubscribe (λ _, false) n.1 (VStr "state") n.2) = Some ValueError.
Proof.
  intros n.
  assert (list_of n.2 n.1 subscriptions_attr = Some (2, [])) as Hl
    by (vm_compute; reflexivity).
  split; [exact Hl|].
  by rewrite (unsubscribe_unknown_topic_raises (λ _, false) n.2 n.1 2 []
                (VStr "state") Hl (not_elem_of_nil _)).
Defined.

Lemma subscribe_before_start_records_topic_witness :
  let n := new "first" UNIX_SOCKET "/tmp/broker.sock" false class_statement in
  let s1 := subscribe (λ _, false) n.1 (VStr "state") n.2 in
  getattr n.2 n.1 "mqtt_client" = Some VNone
  ∧ raised s1 = Some AttributeError
  ∧ list_of (after s1) n.1 subscriptions_attr = Some (2, [VStr "state"]).
Proof.
  intros n s1.
  assert (getattr n.2 n.1 "mqtt_client" = Some VNone) as Hc
    by (vm_compute; reflexivity).
  split; [exact Hc|].
  destruct (subscribe_before_start_records_topic (λ _, false) n.2 n.1 2 []
              (VStr "state")) as (H1 & _ & H2);
    [vm_compute; reflexivity | exact Hc |].
  split; [exact H1 | exact H2].
Defined.

Lemma del_message_callback_undoes_add_witness :
  let n1 := new "first" UNIX_SOCKET "/tmp/broker.sock" false class_statement in
  let n2 := new "second" TCP_DEBUG EmptyString false n1.2 in
  list_of n2.2 n1.1 message_callbacks_attr = Some (0, [])
  ∧ ∃ st1, add_message_callback n1.1 7 n2.2 = Some st1
           ∧ del_message_callback n2.1 7 st1 = Some n2.2.
Proof.
  intros n1 n2.
  assert (list_of n2.2 n1.1 message_callbacks_attr = Some (0, [])) as Hl
    by (vm_compute; reflexivity).
  split; [exact Hl|].
  refine (proj2 (del_message_callback_undoes_add n2.2 n1.1 n2.1 7 0 []
                   _ _ _ Hl (not_elem_of_nil _))).
  - apply registries_shared_new, registries_shared_new, registries_shared_class.
  - apply is_instance_new_old, is_instance_new.
  - apply is_instance_new.
Defined.


Lemma failed_connect_blocks_start_until_stop_witness :
  let n := new "first" UNIX_SOCKET "/tmp/broker.sock" false class_statement in
  let e := start (λ _, true) 9 n.1 n.2 in
  getattr n.2 n.1 "connection_type" = Some (VConn UNIX_SOCKET)
  ∧ getattr (after e) n.1 "is_starting" = Some (VBool true)
  ∧ calls (start (λ _, false) 10 n.1 (after e)) = [].
Proof.
  intros n e.
  assert (getattr n.2 n.1 "connection_type" = Some (VConn UNIX_SOCKET)) as Hct
    by (vm_compute; reflexivity).
  split; [exact Hct|].
  destruct (failed_connect_blocks_start_until_stop (λ _, true) n.2 n.1 9
              UNIX_SOCKET (λ _ _ d, (d, false)))
    as (_ & _ & Hs & _ & Hno & _).
  - apply is_instance_new.
  - vm_compute; reflexivity.
  - vm_compute; reflexivity.
  - exact Hct.
  - discriminate.
  - reflexivity.
  - split; [exact Hs|]. fold e in Hno. by rewrite Hno.
Defined.

Lemma connection_lost_starts_again_witness :
  let n := new "first" SERIAL_PORT "/dev/ttyS0" false class_statement in
  let st := setattr n.2 n.1 "connected" (VBool true) in
  let e := on_connection_lost (λ _, false) 9 n.1 st in
  is_instance st n.1
  ∧ getattr (after e) n.1 "mqtt_client" = Some (VClient 9)
  ∧ getattr (after e) n.1 "connected" = Some (VBool false).
Proof.
  intros n st e.
  assert (is_instance st n.1) as Hi
    by (apply is_instance_setattr, is_instance_new).
  split; [exact Hi|].
  destruct (connection_lost_starts_again (λ _, false) st n.1 9 Hi)
    as (_ & H1 & _ & H2).
  split; [exact H1 | exact H2].
Defined.


End ClientMore.

(** ** The loop of [SerialMQTTClient] *)

Module SerialLoopFacts.
Import SerialLoop SerialLoopSpec.

Lemma notify_elem has_callback :
  OnConnectionLost ∈ notify has_callback ↔ has_callback = true.
Proof.
  destruct has_callback; cbn [notify].
  - split; [done|]. intros _. apply list_elem_of_here.
  - split; [by intros ?%elem_of_nil | done].
Qed.

Lemma pass_actions_silent (t : timeout) (read write : bool) :
  OnConnectionLost ∉
    [Select t] ++ (if read then [LoopRead] else [])
      ++ (if write then [LoopWrite] else []) ++ [LoopMisc].
Proof.
  intros Hin. destruct read, write; cbn in Hin;
    repeat (apply elem_of_cons in Hin as [Hin|Hin]; [discriminate|]);
    by apply elem_of_nil in Hin.
Qed.

(** [on_connection_lost] is called exactly when it is set and the loop
    ends because [_sock] is [None] or because [loop_misc] returned
    [MQTT_ERR_CONN_LOST]; an error of [loop_read] or [loop_write], the
    loss of the connection included, ends the loop without the call. *)
Theorem connection_loss_reported_by_misc_only (has_callback : bool)
    (t : timeout) (passes : list pass) :
  OnConnectionLost ∈ (do_loop has_callback t passes).2
  ↔ (has_callback = true
     ∧ ((do_loop has_callback t passes).1 = NoSocket
        ∨ (do_loop has_callback t passes).1 = MiscError MQTT_ERR_CONN_LOST)).
Proof.
  revert t. induction passes as [|p rest IH]; intros t; cbn [do_loop].
  { cbn [fst snd]. split; [by intros ?%elem_of_nil | by intros (_ & [|])]. }
  destruct (thread_terminate p).
  { cbn [fst snd]. split; [by intros ?%elem_of_nil | by intros (_ & [|])]. }
  destruct (sock_is_none p).
  { cbn [fst snd]. rewrite notify_elem. split; [by auto | by intros []]. }
  cbv zeta.
  set (t' := if 0 <? pending p then no_wait else t).
  set (reads := select_reports p && (0 <? in_waiting p)).
  destruct (reads && negb (bool_decide (loop_read p = MQTT_ERR_SUCCESS))).
  { cbn [fst snd]. split; [|by intros (_ & [|])].
    intros Hin.
    repeat (apply elem_of_cons in Hin as [Hin|Hin]; [discriminate|]).
    by apply elem_of_nil in Hin. }
  destruct (want_write p && negb (bool_decide (loop_write p = MQTT_ERR_SUCCESS))).
  { cbn [fst snd]. split; [|by intros (_ & [|])].
    intros Hin. destruct reads; cbn in Hin;
    repeat (apply elem_of_cons in Hin as [Hin|Hin]; [discriminate|]);
    by apply elem_of_nil in Hin. }
  case_bool_decide as Hmisc.
  { cbn [fst snd]. rewrite elem_of_app, IH.
    split; [|by auto].
    intros [Hin|]; [|done]. by apply pass_actions_silent in Hin. }
  cbn [fst snd]. rewrite elem_of_app.
  case_bool_decide as Hlost.
  - rewrite notify_elem, Hlost. split; [|by intros []; auto].
    intros [Hin|]; [|by auto]. by apply pass_actions_silent in Hin.
  - split.
    + intros [Hin|Hin]; [|by apply elem_of_nil in Hin].
      by apply pass_actions_silent in Hin.
    + intros (_ & [|]); [done|]. congruence.
Qed.

Lemma select_timeouts_app l k :
  select_timeouts (l ++ k) = select_timeouts l ++ select_timeouts k.
Proof. apply omap_app. Qed.

Lemma select_timeouts_pass (t : timeout) (read write : bool) :
  select_timeouts
    ([Select t] ++ (if read then [LoopRead] else [])
      ++ (if write then [LoopWrite] else []) ++ [LoopMisc]) = [t].
Proof. by destruct read, write. Qed.

Lemma select_timeouts_notify has_callback :
  select_timeouts (notify has_callback) = [].
Proof. by destruct has_callback. Qed.

Lemma no_wait_stays (has_callback : bool) (passes : list pass) :
  ∃ n, select_timeouts (do_loop has_callback no_wait passes).2
       = replicate n no_wait.
Proof.
  induction passes as [|p rest IH]; cbn [do_loop].
  { by exists 0. }
  destruct (thread_terminate p); [by exists 0|].
  destruct (sock_is_none p).
  { exists 0. apply select_timeouts_notify. }
  cbv zeta.
  replace (if 0 <? pending p then no_wait else no_wait) with no_wait
    by (by destruct (0 <? pending p)).
  set (reads := select_reports p && (0 <? in_waiting p)).
  destruct (reads && negb (bool_decide (loop_read p = MQTT_ERR_SUCCESS))).
  { by exists 1. }
  destruct (want_write p && negb (bool_decide (loop_write p = MQTT_ERR_SUCCESS))).
  { exists 1. by destruct reads. }
  case_bool_decide.
  - destruct IH as [n IH]. exists (S n). cbn [fst snd].
    by rewrite select_timeouts_app, select_timeouts_pass, IH.
  - exists 1. cbn [fst snd].
    rewrite select_timeouts_app, select_timeouts_pass.
    case_bool_decide; [|done]. by rewrite select_timeouts_notify.
Qed.

(** A pass that finds bytes pending calls [select] with timeout [0.0],
    whatever [timeout] was, and so does every later pass. *)
Lemma busy_pass_stops_waiting (has_callback : bool) (t : timeout)
    (p : pass) (rest : list pass) :
  0 < pending p →
  ∃ m, select_timeouts (do_loop has_callback t (p :: rest)).2
       = replicate m no_wait
       ∧ (thread_terminate p = false → sock_is_none p = false → 0 < m).
Proof.
  intros Hp. cbn [do_loop].
  destruct (thread_terminate p); [by exists 0|].
  destruct (sock_is_none p).
  { exists 0. split; [apply select_timeouts_notify | done]. }
  cbv zeta.
  replace (0 <? pending p) with true by (symmetry; by apply Nat.ltb_lt).
  set (reads := select_reports p && (0 <? in_waiting p)).
  destruct (reads && negb (bool_decide (loop_read p = MQTT_ERR_SUCCESS))).
  { exists 1. split; [done | lia]. }
  destruct (want_write p && negb (bool_decide (loop_write p = MQTT_ERR_SUCCESS))).
  { exists 1. split; [by destruct reads | lia]. }
  case_bool_decide.
  - destruct (no_wait_stays has_callback rest) as [m Hm].
    exists (S m). cbn [fst snd].
    rewrite select_timeouts_app, select_timeouts_pass, Hm.
    split; [done | lia].
  - exists 1. cbn [fst snd].
    rewrite select_timeouts_app, select_timeouts_pass.
    split; [|lia].
    case_bool_decide; [|done]. by rewrite select_timeouts_notify.
Qed.

(** The loop over more passes, once it has come through the first ones. *)
Lemma do_loop_app (has_callback : bool) (t t' : timeout)
    (pre rest : list pass) :
  (do_loop has_callback t pre).1 = Looping t' →
  do_loop has_callback t (pre ++ rest)
  = ((do_loop has_callback t' rest).1,
     (do_loop has_callback t pre).2 ++ (do_loop has_callback t' rest).2).
Proof.
  revert t. induction pre as [|p pre IH]; intros t; cbn [do_loop app].
  { cbn [fst snd]. intros [= ->].
    by destruct (do_loop has_callback t' rest). }
  destruct (thread_terminate p); [done|].
  destruct (sock_is_none p); [done|].
  cbv zeta.
  destruct (_ && negb (bool_decide (loop_read p = _))); [done|].
  destruct (want_write p && negb (bool_decide (loop_write p = _))); [done|].
  case_bool_decide; [|done].
  cbn [fst snd]. intros Hl. rewrite (IH _ Hl). cbn [fst snd app].
  do 2 f_equal. by rewrite <-!app_assoc.
Qed.

(** While no pass finds bytes pending, every [select] waits one second. *)
Lemma idle_passes_wait (has_callback : bool) (pre : list pass)
    (t' : timeout) :
  (do_loop has_callback one_second pre).1 = Looping t' →
  Forall (λ q, pending q = 0) pre →
  select_timeouts (do_loop has_callback one_second pre).2
  = replicate (length pre) one_second.
Proof.
  intros Hl Hidle. revert Hl.
  induction Hidle as [|p pre Hp _ IH]; cbn [do_loop]; [done|].
  destruct (thread_terminate p); [done|].
  destruct (sock_is_none p); [done|].
  cbv zeta. rewrite Hp. replace (0 <? 0) with false by done.
  destruct (_ && negb (bool_decide (loop_read p = _))); [done|].
  destruct (want_write p && negb (bool_decide (loop_write p = _))); [done|].
  case_bool_decide; [|done].
  cbn [fst snd]. intros Hl.
  by rewrite select_timeouts_app, select_timeouts_pass, (IH Hl).
Qed.

(** The timeout of [select] never goes back to one second.  When the loop
    has come through some passes and the next one finds bytes pending,
    the [select] of that pass and of every later pass is called with
    timeout [0.0]; and as long as no pass has found bytes pending, every
    [select] was called with timeout [1.0]. *)
Theorem select_never_waits_again (has_callback : bool)
    (pre : list pass) (p : pass) (rest : list pass) (t : timeout) :
  (run_loop has_callback pre).1 = Looping t →
  0 < pending p →
  ∃ m,
    select_timeouts (run_loop has_callback (pre ++ p :: rest)).2
    = select_timeouts (run_loop has_callback pre).2 ++ replicate m no_wait
    ∧ (thread_terminate p = false → sock_is_none p = false → 0 < m)
    ∧ (Forall (λ q, pending q = 0) pre →
       select_timeouts (run_loop has_callback pre).2
       = replicate (length pre) one_second).
Proof.
  unfold run_loop. intros Hl Hp.
  destruct (busy_pass_stops_waiting has_callback t p rest Hp) as (m & Hm & Hpos).
  exists m. split_and!.
  - rewrite (do_loop_app _ _ _ _ _ Hl). cbn [snd].
    by rewrite select_timeouts_app, Hm.
  - done.
  - by apply idle_passes_wait with t.
Qed.

Lemma select_never_waits_again_witness :
  let idle := {| thread_terminate := false; sock_is_none := false;
                 pending := 0; select_reports := false; in_waiting := 0;
                 loop_read := MQTT_ERR_SUCCESS; want_write := false;
                 loop_write := MQTT_ERR_SUCCESS;
                 loop_misc := MQTT_ERR_SUCCESS |} in
  let busy := {| thread_terminate := false; sock_is_none := false;
                 pending := 3; select_reports := true; in_waiting := 3;
                 loop_read := MQTT_ERR_SUCCESS; want_write := false;
                 loop_write := MQTT_ERR_SUCCESS;
                 loop_misc := MQTT_ERR_SUCCESS |} in
  (run_loop true [idle]).1 = Looping one_second
  ∧ 0 < pending busy
  ∧ ∃ m, select_timeouts (run_loop true ([idle] ++ busy :: [idle])).2
         = [one_second] ++ replicate m no_wait
         ∧ 0 < m.
Proof.
  intros idle busy. split; [reflexivity|]. split; [simpl; lia|].
  destruct (select_never_waits_again true [idle] busy [idle] one_second
              eq_refl (Nat.lt_0_succ 2)) as (m & Hm & Hpos & _).
  exists m. split; [exact Hm | by apply Hpos].
Defined.

End SerialLoopFacts.
